(** * Summary polling in [SidebarProvider.tsx]

    A shallow embedding of [startSummaryPolling], [stopSummaryPolling], the
    interval callback they install and the clean-up effect of
    [SidebarProvider], and the properties of the polling registry proved or
    refuted on it.

    What is modelled, and how:
    - [activeSummaryPolls] is a React state cell holding a
      [Map<string, NodeJS.Timeout>].  The closures built by [useCallback]
      and [useEffect] see the value of the render that created them
      (field [activeSummaryPolls]); the functional updaters passed to
      [setActiveSummaryPolls] see the latest queued value (their [prev],
      field [pendingPolls]).  A commit ([render]) makes the queued value
      the rendered one.
    - every [setInterval] call creates a closure with its own [pollCount],
      [meetingId], [processId] and [onUpdate]; the table [intervals] keeps
      one [Poller] per timer ever created, with a flag telling whether the
      timer has been cleared.
    - the interval callback is [async]: the part before [await] is
      [pollTick]; the continuation after the promise settles is
      [pollResolved] (the [try] branch) or [pollRejected] (the [catch]
      branch).  Fetches that have not settled yet are in [inflight].
    - [onUpdate] is an opaque sink: each invocation is appended to [calls].
      A call may return or throw.  Inside the [try] a throw is caught by
      the [catch] block, which calls [onUpdate] again; a throw inside the
      [catch] skips the rest of the block.  The events [Resolve] and
      [Reject] are the executions in which every call returns,
      [ResolveThrows] and [RejectThrows] those in which a call throws.
      A throw of the timeout call (after the timer is cleared, outside the
      [try]) changes nothing else.  Sinks do not re-enter the registry.

    Beside the polling registry the file embeds [searchTranscripts] and
    [baseItems] of the same provider and the two consumers of their state
    in [Sidebar/index.tsx], [filteredSidebarItems] and
    [findMatchingSnippet].  [String.prototype.trim] and [toLowerCase] are
    parameters of these definitions: the properties hold for any such
    functions. *)

From stdpp Require Import gmap strings list fin_maps.

Open Scope string_scope.
Open Scope list_scope.
Open Scope nat_scope.

(** ** Data *)

Abbreviation timer := positive (only parsing).
Abbreviation callback := nat (only parsing).

(** What the backend returns ([result], typed [any] in the source): only
    [status] is read by the poller. *)
Record StatusRecord := mkStatus {
  status : string;
  error : option string;
  payload : option string
}.

#[global] Instance StatusRecord_eq_dec : EqDecision StatusRecord.
Proof. solve_decision. Defined.

(** A value thrown by [invoke]: an [Error] instance with its [message], or
    any other value. *)
Inductive Thrown :=
| ErrorObject (message : string)
| OtherValue (text : string).

(** [error instanceof Error ? error.message : 'Unknown error'] *)
Definition failure_message (e : Thrown) : string :=
  match e with
  | ErrorObject m => m
  | OtherValue _ => "Unknown error"
  end.

Definition MAX_POLLS : nat := 120.

Definition timeout_message : string :=
  "Summary generation timed out after 10 minutes. Please try again or check your model configuration.".

Definition timeout_record : StatusRecord :=
  mkStatus "error" (Some timeout_message) None.

Definition failure_record (e : Thrown) : StatusRecord :=
  mkStatus "error" (Some (failure_message e)) None.

(** The closure created by one call of [startSummaryPolling]. *)
Record Poller := mkPoller {
  meetingId : string;
  processId : string;
  onUpdate : callback;
  pollCount : nat;
  running : bool
}.

Record Call := mkCall {
  call_timer : timer;
  call_sink : callback;
  call_arg : StatusRecord
}.

Record World := mkWorld {
  activeSummaryPolls : gmap string timer;
  pendingPolls : gmap string timer;
  stale : bool;
  intervals : gmap timer Poller;
  fresh : timer;
  inflight : list timer;
  calls : list Call
}.

Definition init : World :=
  mkWorld ∅ ∅ false ∅ 1%positive [] [].

(** ** Primitive effects *)

Definition cleared (p : Poller) : Poller :=
  mkPoller (meetingId p) (processId p) (onUpdate p) (pollCount p) false.

Definition counted (n : nat) (p : Poller) : Poller :=
  mkPoller (meetingId p) (processId p) (onUpdate p) n (running p).

Definition with_intervals (f : gmap timer Poller → gmap timer Poller)
    (w : World) : World :=
  mkWorld (activeSummaryPolls w) (pendingPolls w) (stale w)
          (f (intervals w)) (fresh w) (inflight w) (calls w).

Definition clearInterval (t : timer) (w : World) : World :=
  with_intervals (alter cleared t) w.

(** [setActiveSummaryPolls(prev => ...)]: the updater returns a new [Map],
    so the state always changes identity and a render is due. *)
Definition setActiveSummaryPolls
    (f : gmap string timer → gmap string timer) (w : World) : World :=
  mkWorld (activeSummaryPolls w) (f (pendingPolls w)) true
          (intervals w) (fresh w) (inflight w) (calls w).

(** [setInterval(async () => ..., 5000)] for a new closure. *)
Definition setInterval (p : Poller) (w : World) : World :=
  mkWorld (activeSummaryPolls w) (pendingPolls w) (stale w)
          (<[fresh w := p]> (intervals w)) (Pos.succ (fresh w))
          (inflight w) (calls w).

Definition invoke_onUpdate (t : timer) (cb : callback) (r : StatusRecord)
    (w : World) : World :=
  mkWorld (activeSummaryPolls w) (pendingPolls w) (stale w)
          (intervals w) (fresh w) (inflight w) (calls w ++ [mkCall t cb r]).

Definition launch_fetch (t : timer) (w : World) : World :=
  mkWorld (activeSummaryPolls w) (pendingPolls w) (stale w)
          (intervals w) (fresh w) (inflight w ++ [t]) (calls w).

Fixpoint remove_first (t : timer) (l : list timer) : list timer :=
  match l with
  | [] => []
  | u :: l' => if decide (u = t) then l' else u :: remove_first t l'
  end.

Definition settle_fetch (t : timer) (w : World) : World :=
  mkWorld (activeSummaryPolls w) (pendingPolls w) (stale w)
          (intervals w) (fresh w) (remove_first t (inflight w)) (calls w).

(** ** The source functions *)

(** [startSummaryPolling] (lines 184-263), run from a closure that captured
    [snapshot] as its [activeSummaryPolls]: clear the timer the snapshot has
    for the key, create the interval with [pollCount = 0], queue the
    registry update. *)
Definition startSummaryPolling (snapshot : gmap string timer)
    (k j : string) (cb : callback) (w : World) : World :=
  let w1 := match snapshot !! k with
            | Some old => clearInterval old w
            | None => w
            end in
  let pollInterval := fresh w1 in
  let w2 := setInterval (mkPoller k j cb 0 true) w1 in
  setActiveSummaryPolls (λ prev, <[k := pollInterval]> prev) w2.

(** [stopSummaryPolling] (lines 265-276), run from a closure that captured
    [snapshot]: nothing happens unless the snapshot has a timer for the key
    (a timer is never falsy). *)
Definition stopSummaryPolling (snapshot : gmap string timer)
    (k : string) (w : World) : World :=
  match snapshot !! k with
  | Some pollInterval =>
      setActiveSummaryPolls (λ prev, delete k prev)
        (clearInterval pollInterval w)
  | None => w
  end.

(** The interval callback up to its [await] (lines 199-218): increment
    [pollCount]; at [MAX_POLLS] clear the timer, queue the removal and
    report the timeout; otherwise launch the fetch.  A cleared timer does
    not fire.  The timeout call is the last statement run and is outside
    the [try]: whether it returns or throws, the state is the same. *)
Definition pollTick (t : timer) (w : World) : World :=
  match intervals w !! t with
  | Some p =>
      if running p then
        let n := S (pollCount p) in
        let w1 := with_intervals (<[t := counted n p]>) w in
        if Nat.leb MAX_POLLS n then
          invoke_onUpdate t (onUpdate p) timeout_record
            (setActiveSummaryPolls (λ prev, delete (meetingId p) prev)
               (clearInterval t w1))
        else launch_fetch t w1
      else w
  | None => w
  end.

Definition is_final (s : string) : bool :=
  bool_decide (s = "completed") || bool_decide (s = "error")
  || bool_decide (s = "failed").

(** How the call [onUpdate(result)] of line 225 ends: it returns, or it
    throws [x]; in that case [again] is what the call of line 249 in the
    [catch] throws, if it throws too. *)
Inductive Outcome :=
| Returns
| Throws (x : Thrown) (again : option Thrown).

(** The [catch] block (lines 246-259) for the caught value [e]: report the
    error to the callback, then clear the timer and queue the removal.
    [thrown] is what the call of line 249 throws, if it throws: lines
    253-258 are then skipped. *)
Definition pollCaught (t : timer) (p : Poller) (e : Thrown)
    (thrown : option Thrown) (w : World) : World :=
  let w1 := invoke_onUpdate t (onUpdate p) (failure_record e) w in
  match thrown with
  | None =>
      setActiveSummaryPolls (λ prev, delete (meetingId p) prev)
        (clearInterval t w1)
  | Some _ => w1
  end.

(** The continuation of the callback when [invoke] resolves with [result]
    (lines 222-245).  [pollCount] is the closure's variable, read now.
    When [onUpdate(result)] throws, the status is never tested and the
    [catch] block runs on the thrown value. *)
Definition pollResolved (t : timer) (result : StatusRecord)
    (outcome : Outcome) (w : World) : World :=
  match intervals w !! t with
  | Some p =>
      if bool_decide (t ∈ inflight w) then
        let w1 := invoke_onUpdate t (onUpdate p) result (settle_fetch t w) in
        match outcome with
        | Returns =>
            if is_final (status result) then
              setActiveSummaryPolls (λ prev, delete (meetingId p) prev)
                (clearInterval t w1)
            else if bool_decide (status result = "idle")
                    && Nat.ltb 1 (pollCount p) then
              setActiveSummaryPolls (λ prev, delete (meetingId p) prev)
                (clearInterval t w1)
            else w1
        | Throws x again => pollCaught t p x again w1
        end
      else w
  | None => w
  end.

(** The continuation when [invoke] rejects with [e] (or when reading
    [result.status] at line 222 throws [e], for an answer that is [null] or
    [undefined]): the [catch] block. *)
Definition pollRejected (t : timer) (e : Thrown) (thrown : option Thrown)
    (w : World) : World :=
  match intervals w !! t with
  | Some p =>
      if bool_decide (t ∈ inflight w) then
        pollCaught t p e thrown (settle_fetch t w)
      else w
  | None => w
  end.

(** The clean-up of [useEffect(() => () => activeSummaryPolls.forEach(...),
    [activeSummaryPolls])] (lines 278-284), run over the map of the outgoing
    render. *)
Definition cleanup (old : gmap string timer) (w : World) : World :=
  foldr clearInterval w (map_to_list old).*2.

(** A commit: when an updater ran since the last render the state is a new
    [Map], so the dependency of the effect changed; React runs the outgoing
    effect's clean-up and the new closures capture the new map. *)
Definition render (w : World) : World :=
  if stale w then
    let w1 := cleanup (activeSummaryPolls w) w in
    mkWorld (pendingPolls w1) (pendingPolls w1) false
            (intervals w1) (fresh w1) (inflight w1) (calls w1)
  else w.

(** ** Executions *)

(** What the single-threaded loop can run next: a call of the two exported
    functions through the closures of the current render, a timer firing, a
    fetch settling, or a commit.  [Resolve] and [Reject] are the
    continuations in which every call of [onUpdate] returns;
    [ResolveThrows t result x again] is the one in which [onUpdate(result)]
    throws [x] (and the call in the [catch] throws [again], if any), and
    [RejectThrows t e x] the one in which the call in the [catch] throws
    [x]. *)
Inductive Event :=
| Start (k j : string) (cb : callback)
| Stop (k : string)
| Tick (t : timer)
| Resolve (t : timer) (result : StatusRecord)
| Reject (t : timer) (e : Thrown)
| Render
| ResolveThrows (t : timer) (result : StatusRecord) (x : Thrown)
    (again : option Thrown)
| RejectThrows (t : timer) (e x : Thrown).

Definition step (w : World) (e : Event) : World :=
  match e with
  | Start k j cb => startSummaryPolling (activeSummaryPolls w) k j cb w
  | Stop k => stopSummaryPolling (activeSummaryPolls w) k w
  | Tick t => pollTick t w
  | Resolve t r => pollResolved t r Returns w
  | Reject t e => pollRejected t e None w
  | Render => render w
  | ResolveThrows t r x again => pollResolved t r (Throws x again) w
  | RejectThrows t e x => pollRejected t e (Some x) w
  end.

Definition run (w : World) (evs : list Event) : World :=
  fold_left step evs w.

Definition reachable (w : World) : Prop := ∃ evs, w = run init evs.

Definition is_running (w : World) (t : timer) : bool :=
  match intervals w !! t with
  | Some p => running p
  | None => false
  end.

(** ** Observations *)

(** The calls made by the closure of timer [t]. *)
Definition calls_by (t : timer) (l : list Call) : list Call :=
  filter (λ c, call_timer c = t) l.

(** The fetches of the closure of timer [t] that have not settled. *)
Definition fetches_of (t : timer) (l : list timer) : nat :=
  length (filter (λ u, u = t) l).

(** Calls already made by a closure plus its fetches still in flight. *)
Definition owed (t : timer) (w : World) : nat :=
  length (calls_by t (calls w)) + fetches_of t (inflight w).

(** The same, each fetch in flight counted for the two calls it can still
    cause. *)
Definition owed_at_most (t : timer) (w : World) : nat :=
  length (calls_by t (calls w)) + 2 * fetches_of t (inflight w).

(** What one step lets the outside observe. *)
Inductive observable (w w' : World) : Prop :=
| obs_silent :
    calls w' = calls w → inflight w' = inflight w → observable w w'
| obs_timeout u cb r :
    is_running w u = true →
    calls w' = calls w ++ [mkCall u cb r] → inflight w' = inflight w →
    observable w w'
| obs_launch u :
    is_running w u = true →
    calls w' = calls w → inflight w' = inflight w ++ [u] →
    observable w w'
| obs_settle u cb r :
    u ∈ inflight w →
    calls w' = calls w ++ [mkCall u cb r] →
    inflight w' = remove_first u (inflight w) →
    observable w w'
| obs_settle_twice u cb r r' :
    u ∈ inflight w →
    calls w' = calls w ++ [mkCall u cb r; mkCall u cb r'] →
    inflight w' = remove_first u (inflight w) →
    observable w w'.

(** ** Invariants *)

(** How a closure may change: [meetingId], [processId] and [onUpdate] are
    constants of the closure, [pollCount] only grows and a cleared timer is
    never re-armed. *)
Record evolves (p p' : Poller) : Prop := {
  ev_meeting : meetingId p' = meetingId p;
  ev_process : processId p' = processId p;
  ev_sink : onUpdate p' = onUpdate p;
  ev_count : pollCount p ≤ pollCount p';
  ev_running : running p' = true → running p = true
}.

Definition keeps_count (p p' : Poller) : Prop := pollCount p' = pollCount p.

(** Every closure of [w] is still in [w'], changed as [R] allows. *)
Definition lifts (R : Poller → Poller → Prop) (w w' : World) : Prop :=
  ∀ t p, intervals w !! t = Some p →
         ∃ p', intervals w' !! t = Some p' ∧ R p p'.

(** Timers are allocated in order, the registry and the fetches in flight
    name allocated timers only, and each recorded call went to the callback
    of the closure that made it. *)
Record wf (w : World) : Prop := {
  wf_alloc : ∀ t, is_Some (intervals w !! t) ↔ (t < fresh w)%positive;
  wf_active : ∀ k t, activeSummaryPolls w !! k = Some t → (t < fresh w)%positive;
  wf_pending : ∀ k t, pendingPolls w !! k = Some t → (t < fresh w)%positive;
  wf_inflight : ∀ t, t ∈ inflight w → (t < fresh w)%positive;
  wf_calls : ∀ c, c ∈ calls w →
             ∃ p, intervals w !! call_timer c = Some p ∧ onUpdate p = call_sink c
}.

(** Key [k] has left the registry: the queued state has no entry for it,
    and neither has the map the next render hands to the closures. *)
Definition unregistered (k : string) (w : World) : Prop :=
  pendingPolls w !! k = None ∧ activeSummaryPolls (render w) !! k = None.

Definition poller_ok (p : Poller) : Prop :=
  pollCount p ≤ MAX_POLLS ∧ (running p = true → pollCount p < MAX_POLLS).

Definition bounded (w : World) : Prop :=
  ∀ t p, intervals w !! t = Some p → poller_ok p.

(** ** Concrete runs *)

Definition processing : StatusRecord := mkStatus "processing" None None.
Definition completed : StatusRecord :=
  mkStatus "completed" None (Some "summary").


(** One poll whose first [n] fetches all answer [processing]. *)
Definition patient_run (n : nat) : list Event :=
  [Start "m1" "p1" 0; Render]
  ++ concat (replicate n [Tick 1; Resolve 1 processing])%positive.

(** The record the specification expects on a timeout. *)
Definition short_timeout_record : StatusRecord :=
  mkStatus "error" (Some "timed out after 10 minutes") None.


(** Every tick of a closure's timer accounts for one call made or one fetch
    in flight at least, and for two calls at most. *)
Definition accounted (w : World) : Prop :=
  ∀ t p, intervals w !! t = Some p →
         pollCount p ≤ owed t w ∧ owed_at_most t w ≤ 2 * pollCount p.

(** The events in which no call of [onUpdate] throws. *)
Definition returns_normally (e : Event) : bool :=
  match e with
  | ResolveThrows _ _ _ _ | RejectThrows _ _ _ => false
  | _ => true
  end.

(** Every tick of a closure's timer accounts for exactly one call made or
    one fetch in flight. *)
Definition accounted_exactly (w : World) : Prop :=
  ∀ t p, intervals w !! t = Some p → owed t w = pollCount p.

(** Every registry entry, rendered or queued, names the timer of a closure
    that polls the entry's own key. *)
Definition registry_sound (w : World) : Prop :=
  ∀ k t, activeSummaryPolls w !! k = Some t ∨ pendingPolls w !! k = Some t →
         ∃ p, intervals w !! t = Some p ∧ meetingId p = k.

(** ** Transcript search ([searchTranscripts], lines 163-181) *)

Record TranscriptSearchResult := mkResult {
  result_id : string;
  result_title : string;
  matchContext : string;
  timestamp : string
}.

(** The two state cells the function writes, and the queries whose
    [invoke('api_search_transcripts')] has not settled yet. *)
Record SearchState := mkSearch {
  searchResults : list TranscriptSearchResult;
  isSearching : bool;
  searching : list string
}.

Definition search_init : SearchState := mkSearch [] false [].

Definition setSearchResults (rs : list TranscriptSearchResult)
    (s : SearchState) : SearchState :=
  mkSearch rs (isSearching s) (searching s).

Definition setIsSearching (b : bool) (s : SearchState) : SearchState :=
  mkSearch (searchResults s) b (searching s).

Definition launch_search (q : string) (s : SearchState) : SearchState :=
  mkSearch (searchResults s) (isSearching s) (searching s ++ [q]).

Definition settle_search (i : nat) (s : SearchState) : SearchState :=
  mkSearch (searchResults s) (isSearching s) (delete i (searching s)).

(** [searchTranscripts] up to its [await].  [trim] is [String.prototype.trim];
    an empty string is the only falsy string. *)
Definition searchTranscripts (trim : string → string) (query : string)
    (s : SearchState) : SearchState :=
  if bool_decide (trim query = "") then setSearchResults [] s
  else launch_search query (setIsSearching true s).

Inductive SearchAnswer :=
| Found (results : list TranscriptSearchResult)
| SearchFailed (e : Thrown).

(** The rest of [searchTranscripts] once the [i]-th pending [invoke]
    settles: the [try] or the [catch] branch, then [finally]. *)
Definition searchSettled (i : nat) (a : SearchAnswer) (s : SearchState)
    : SearchState :=
  match searching s !! i with
  | Some _ =>
      let s1 := settle_search i s in
      let s2 := match a with
                | Found results => setSearchResults results s1
                | SearchFailed _ => setSearchResults [] s1
                end in
      setIsSearching false s2
  | None => s
  end.

Inductive SearchEvent :=
| Search (query : string)
| Settle (i : nat) (a : SearchAnswer).

Definition search_step (trim : string → string) (s : SearchState)
    (e : SearchEvent) : SearchState :=
  match e with
  | Search q => searchTranscripts trim q s
  | Settle i a => searchSettled i a s
  end.

Definition search_run (trim : string → string) (s : SearchState)
    (evs : list SearchEvent) : SearchState :=
  fold_left (search_step trim) evs s.

(** ** The sidebar tree ([baseItems], lines 119-128, and its consumer
    [filteredSidebarItems] in [Sidebar/index.tsx], lines 250-309) *)

Record CurrentMeeting := mkMeeting {
  meeting_id : string;
  meeting_title : string
}.

Inductive ItemType := folder | file.

Unset Elimination Schemes.
Inductive SidebarItem := mkItem {
  item_id : string;
  item_title : string;
  item_type : ItemType;
  children : option (list SidebarItem)
}.
Set Elimination Schemes.

Definition file_item (m : CurrentMeeting) : SidebarItem :=
  mkItem (meeting_id m) (meeting_title m) file None.

Definition baseItems (meetings : list CurrentMeeting) : list SidebarItem :=
  [mkItem "meetings" "Meeting Notes" folder
     (Some (List.map file_item meetings))].

(** [s.includes(sub)]: [sub] occurs in [s] as a contiguous run. *)
Fixpoint includes (s sub : string) : bool :=
  if String.prefix sub s then true
  else match s with
       | EmptyString => false
       | String _ rest => includes rest sub
       end.

(** [matchedMeetingIds.has(item.id)] for
    [new Set(searchResults.map(result => result.id))]. *)
Definition matched_by_transcript (searchResults : list TranscriptSearchResult)
    (i : string) : bool :=
  bool_decide (i ∈ List.map result_id searchResults).

(** [title.toLowerCase().includes(searchQuery.toLowerCase())] *)
Definition matched_by_title (toLowerCase : string → string)
    (searchQuery title : string) : bool :=
  includes (toLowerCase title) (toLowerCase searchQuery).

(** The [map] callback: a folder is kept, its children (when it has any)
    filtered by [keep]; any other item is kept when [keep] accepts it and
    becomes [undefined] otherwise. *)
Definition filter_item (keep : SidebarItem → bool) (it : SidebarItem)
    : option SidebarItem :=
  match item_type it with
  | folder =>
      match children it with
      | None => Some it
      | Some cs =>
          Some (mkItem (item_id it) (item_title it) (item_type it)
                  (Some (List.filter keep cs)))
      end
  | file => if keep it then Some it else None
  end.

(** [.map(...).filter(item => item !== undefined)] *)
Definition filter_items (keep : SidebarItem → bool)
    (sidebarItems : list SidebarItem) : list SidebarItem :=
  omap (filter_item keep) sidebarItems.

Definition filteredSidebarItems (trim toLowerCase : string → string)
    (sidebarItems : list SidebarItem) (searchQuery : string)
    (searchResults : list TranscriptSearchResult) : list SidebarItem :=
  if bool_decide (trim searchQuery = "") then sidebarItems
  else if Nat.ltb 0 (length searchResults) then
    filter_items
      (λ it, matched_by_transcript searchResults (item_id it)
             || matched_by_title toLowerCase searchQuery (item_title it))
      sidebarItems
  else
    filter_items
      (λ it, matched_by_title toLowerCase searchQuery (item_title it))
      sidebarItems.

(** [findMatchingSnippet] ([Sidebar/index.tsx], lines 527-530). *)
Definition findMatchingSnippet (trim : string → string)
    (searchQuery : string) (searchResults : list TranscriptSearchResult)
    (itemId : string) : option TranscriptSearchResult :=
  if bool_decide (trim searchQuery = "")
     || Nat.eqb (length searchResults) 0 then None
  else List.find (λ r, bool_decide (result_id r = itemId)) searchResults.

(** The meetings a search keeps: those named by a transcript match and
    those whose title contains the query, case folded. *)
Definition meeting_matches (toLowerCase : string → string)
    (searchQuery : string) (searchResults : list TranscriptSearchResult)
    (m : CurrentMeeting) : bool :=
  matched_by_transcript searchResults (meeting_id m)
  || matched_by_title toLowerCase searchQuery (meeting_title m).

Definition is_folder (it : SidebarItem) : bool :=
  match item_type it with folder => true | file => false end.

(** * Properties *)

Create HintDb poll.

(** The guards shared by the parts of the interval callback: the closure
    exists, and its timer is running (before the [await]) or one of its
    fetches is in flight (after it).  The residual cases are no-ops. *)
Ltac callback_guards t w p Hp :=
  destruct (intervals w !! t) as [p|] eqn:Hp;
  [ lazymatch goal with
    | |- context [bool_decide (t ∈ inflight w)] =>
        destruct (bool_decide (t ∈ inflight w)) eqn:?
    | |- context [running p] =>
        destruct (running p) eqn:?
    end
  | ];
  [ | try done .. ].

(** ** Lifting a relation on closures through the primitive effects *)

Lemma evolves_refl p : evolves p p.
Proof. by split. Qed.

Lemma evolves_trans p q r : evolves p q → evolves q r → evolves p r.
Proof. intros [] []. split; try congruence; [lia | auto]. Qed.

Lemma evolves_cleared p : evolves p (cleared p).
Proof. by split. Qed.

Lemma evolves_counted p n : pollCount p ≤ n → evolves p (counted n p).
Proof. by split. Qed.

Section lifting.
Context (R : Poller → Poller → Prop).
Hypothesis R_refl : ∀ p, R p p.
Hypothesis R_trans : ∀ p q r, R p q → R q r → R p r.
Hypothesis R_cleared : ∀ p, R p (cleared p).

Lemma lifts_refl w : lifts R w w.
Proof using R_refl. intros t p H. eauto. Qed.

Lemma lifts_trans w1 w2 w3 : lifts R w1 w2 → lifts R w2 w3 → lifts R w1 w3.
Proof using R_trans.
  intros H12 H23 t p H.
  destruct (H12 t p H) as (q & Hq & E1).
  destruct (H23 t q Hq) as (r & Hr & E2). eauto.
Qed.

Lemma lifts_same w w' : intervals w' = intervals w → lifts R w w'.
Proof using R_refl. intros E t p H. rewrite E. eauto. Qed.

Lemma lifts_clearInterval t w : lifts R w (clearInterval t w).
Proof using R_refl R_cleared.
  intros u p H. simpl. rewrite lookup_alter.
  case_decide; subst; rewrite H; simpl; eauto.
Qed.

Lemma lifts_setInterval p w :
  intervals w !! fresh w = None → lifts R w (setInterval p w).
Proof using R_refl.
  intros Hf u q H. simpl. rewrite lookup_insert_ne by congruence. eauto.
Qed.

Lemma lifts_counted t p n w :
  intervals w !! t = Some p → R p (counted n p) →
  lifts R w (with_intervals (<[t := counted n p]>) w).
Proof using R_refl.
  intros Ht Hn u q H. simpl. rewrite lookup_insert.
  case_decide; subst; [|eauto].
  rewrite Ht in H. injection H as <-. eauto.
Qed.

Lemma lifts_cleanup_list l w : lifts R w (foldr clearInterval w l).
Proof using R_refl R_trans R_cleared.
  induction l as [|t l IH]; simpl; [apply lifts_refl|].
  eapply lifts_trans; [exact IH | apply lifts_clearInterval].
Qed.

Lemma lifts_retire t k w :
  lifts R w
    (setActiveSummaryPolls (λ prev, delete k prev) (clearInterval t w)).
Proof using R_refl R_trans R_cleared.
  eapply lifts_trans; [apply lifts_clearInterval | by apply lifts_same].
Qed.
End lifting.

(** ** Well-formed worlds *)

Lemma wf_init : wf init.
Proof.
  split; simpl; intros *.
  - rewrite lookup_empty. split; [intros []; done | lia].
  - by rewrite lookup_empty.
  - by rewrite lookup_empty.
  - by intros ?%elem_of_nil.
  - by intros ?%elem_of_nil.
Qed.

Lemma wf_calls_lifted w l :
  lifts evolves w (with_intervals (λ _, l) w) →
  (∀ c, c ∈ calls w →
        ∃ p, intervals w !! call_timer c = Some p ∧ onUpdate p = call_sink c) →
  ∀ c, c ∈ calls w → ∃ p, l !! call_timer c = Some p ∧ onUpdate p = call_sink c.
Proof.
  intros E H c Hc. destruct (H c Hc) as (p & Hp & Hs).
  destruct (E _ _ Hp) as (p' & Hp' & []). simpl in Hp'.
  exists p'. split; [done | congruence].
Qed.

Lemma wf_clearInterval t w : wf w → wf (clearInterval t w).
Proof.
  intros []. split; simpl; try done.
  - intros u. by rewrite lookup_alter_is_Some.
  - apply wf_calls_lifted; [|done].
    apply (lifts_clearInterval evolves evolves_refl evolves_cleared t w).
Qed.

Lemma wf_fresh_free w : wf w → intervals w !! fresh w = None.
Proof.
  intros Hw. apply eq_None_not_Some. rewrite (wf_alloc w Hw). lia.
Qed.

Lemma wf_setInterval p w : wf w → wf (setInterval p w).
Proof.
  intros Hw. pose proof (wf_fresh_free w Hw) as Hfree.
  destruct Hw as [Ha Hs Hp Hi Hc]. split; simpl.
  - intros u. rewrite lookup_insert_is_Some', Ha. lia.
  - intros k u H. apply Hs in H. lia.
  - intros k u H. apply Hp in H. lia.
  - intros u H. apply Hi in H. lia.
  - apply wf_calls_lifted; [|done].
    by apply (lifts_setInterval evolves evolves_refl p w).
Qed.

Lemma wf_set_delete k w :
  wf w → wf (setActiveSummaryPolls (λ prev, delete k prev) w).
Proof.
  intros [? ? Hp ? ?]. split; simpl; try done.
  intros k' u [_ Hl]%lookup_delete_Some. eauto.
Qed.

Lemma wf_set_insert k t w :
  wf w → (t < fresh w)%positive →
  wf (setActiveSummaryPolls (λ prev, <[k := t]> prev) w).
Proof.
  intros [? ? Hp ? ?] Ht. split; simpl; try done.
  intros k' u [[_ <-]|[_ Hl]]%lookup_insert_Some; eauto.
Qed.

Lemma wf_invoke t cb r w :
  wf w → (∃ p, intervals w !! t = Some p ∧ onUpdate p = cb) →
  wf (invoke_onUpdate t cb r w).
Proof.
  intros [? ? ? ? Hc] Hp. split; simpl; try done.
  intros c [Hin| ->%list_elem_of_singleton]%elem_of_app; eauto.
Qed.

Lemma wf_launch t w : wf w → (t < fresh w)%positive → wf (launch_fetch t w).
Proof.
  intros [? ? ? Hi ?] Ht. split; simpl; try done.
  intros u [Hin| ->%list_elem_of_singleton]%elem_of_app; eauto.
Qed.

Lemma remove_first_subseteq t l u : u ∈ remove_first t l → u ∈ l.
Proof.
  induction l as [|x l IH]; simpl; [done|].
  case_decide; [by right|].
  intros [->|Hin]%elem_of_cons; [by left | right; auto].
Qed.

Lemma wf_settle t w : wf w → wf (settle_fetch t w).
Proof.
  intros [? ? ? Hi ?]. split; simpl; try done.
  intros u Hin%remove_first_subseteq. eauto.
Qed.

Lemma wf_counted t p n w :
  wf w → intervals w !! t = Some p → pollCount p ≤ n →
  wf (with_intervals (<[t := counted n p]>) w).
Proof.
  intros [Ha ? ? ? ?] Ht Hn. split; simpl; try done.
  - intros u. rewrite lookup_insert_is_Some', <- Ha.
    split; [intros [->|]; eauto | auto].
  - apply wf_calls_lifted; [|done].
    apply (lifts_counted evolves evolves_refl t p n w Ht).
    by apply evolves_counted.
Qed.

Lemma wf_cleanup_list l w : wf w → wf (foldr clearInterval w l).
Proof. induction l; simpl; auto using wf_clearInterval. Qed.

#[local] Hint Resolve wf_clearInterval wf_setInterval wf_set_delete
  wf_set_insert wf_invoke wf_launch wf_settle wf_counted wf_cleanup_list
  : poll.

(** ** Well-formedness is preserved by every step *)

Lemma cleanup_list_unfold l w :
  foldr clearInterval w l
  = with_intervals (λ m, foldr (λ t, alter cleared t) m l) w.
Proof.
  induction l as [|t l IH]; simpl; [by destruct w|].
  rewrite IH. reflexivity.
Qed.

Lemma unregistered_intro k w :
  stale w = true → pendingPolls w !! k = None → unregistered k w.
Proof.
  intros Hs Hk. split; [done|]. unfold render, cleanup.
  rewrite Hs, cleanup_list_unfold. done.
Qed.

Lemma wf_replaced (s : gmap string timer) k w :
  wf w →
  wf (match s !! k with Some old => clearInterval old w | None => w end).
Proof. destruct (s !! k); auto with poll. Qed.

Lemma wf_startSummaryPolling s k j cb w :
  wf w → wf (startSummaryPolling s k j cb w).
Proof.
  intros Hw. unfold startSummaryPolling.
  apply wf_set_insert; [by apply wf_setInterval, wf_replaced|].
  simpl. lia.
Qed.

Lemma wf_stopSummaryPolling s k w : wf w → wf (stopSummaryPolling s k w).
Proof.
  intros Hw. unfold stopSummaryPolling. destruct (s !! k); auto with poll.
Qed.

Lemma wf_pollTick t w : wf w → wf (pollTick t w).
Proof.
  intros Hw. unfold pollTick. callback_guards t w p Hp.
  assert (wf (with_intervals (<[t := counted (S (pollCount p)) p]>) w)) as Hw1
    by auto with poll.
  destruct (Nat.leb _ _).
  - apply wf_invoke; [auto with poll|].
    simpl. rewrite lookup_alter_eq, lookup_insert_eq. simpl. eauto.
  - apply wf_launch; [done|]. simpl. apply (wf_alloc w Hw). eauto.
Qed.

Lemma wf_pollCaught t p e thrown w :
  wf w → intervals w !! t = Some p → wf (pollCaught t p e thrown w).
Proof.
  intros Hw Hp. unfold pollCaught.
  assert (wf (invoke_onUpdate t (onUpdate p) (failure_record e) w)) as Hw1
    by (apply wf_invoke; eauto).
  destruct thrown; auto with poll.
Qed.

Lemma wf_pollResolved t r o w : wf w → wf (pollResolved t r o w).
Proof.
  intros Hw. unfold pollResolved. callback_guards t w p Hp.
  assert (wf (invoke_onUpdate t (onUpdate p) r (settle_fetch t w))) as Hw1
    by (apply wf_invoke; [auto with poll | simpl; eauto]).
  destruct o as [|x again]; [|by apply wf_pollCaught].
  destruct (is_final _); [auto with poll|].
  destruct (_ && _); auto with poll.
Qed.

Lemma wf_pollRejected t e thrown w : wf w → wf (pollRejected t e thrown w).
Proof.
  intros Hw. unfold pollRejected. callback_guards t w p Hp.
  apply wf_pollCaught; [auto with poll | done].
Qed.

Lemma wf_render w : wf w → wf (render w).
Proof.
  intros Hw. unfold render. destruct (stale w); [|done].
  unfold cleanup.
  pose proof (wf_cleanup_list (map_to_list (activeSummaryPolls w)).*2 w Hw)
    as [Ha Hs Hp Hi Hc].
  split; simpl; done.
Qed.

Lemma wf_step w e : wf w → wf (step w e).
Proof.
  destruct e; simpl;
    auto using wf_startSummaryPolling, wf_stopSummaryPolling, wf_pollTick,
               wf_pollResolved, wf_pollRejected, wf_render.
Qed.

Lemma wf_run evs w : wf w → wf (run w evs).
Proof.
  revert w. induction evs as [|e evs IH]; intros w Hw; simpl; [done|].
  apply IH, wf_step, Hw.
Qed.

Lemma reachable_wf w : reachable w → wf w.
Proof. intros [evs ->]. apply wf_run, wf_init. Qed.

(** ** Lifting a relation on closures through the steps *)

Section lifting_steps.
Context (R : Poller → Poller → Prop).
Hypothesis R_refl : ∀ p, R p p.
Hypothesis R_trans : ∀ p q r, R p q → R q r → R p r.
Hypothesis R_cleared : ∀ p, R p (cleared p).

Local Hint Resolve lifts_refl lifts_clearInterval lifts_retire
  lifts_cleanup_list : poll.

Lemma lifts_startSummaryPolling s k j cb w :
  wf w → lifts R w (startSummaryPolling s k j cb w).
Proof using R_refl R_trans R_cleared.
  intros Hw. unfold startSummaryPolling.
  pose proof (wf_replaced s k w Hw) as Hw1.
  set (w1 := match s !! k with Some _ => _ | None => w end) in *.
  eapply (lifts_trans R R_trans _ w1);
    [subst w1; destruct (s !! k); auto with poll|].
  eapply (lifts_trans R R_trans); [|by apply lifts_same].
  by apply lifts_setInterval, wf_fresh_free.
Qed.

Lemma lifts_stopSummaryPolling s k w :
  lifts R w (stopSummaryPolling s k w).
Proof using R_refl R_trans R_cleared.
  unfold stopSummaryPolling. destruct (s !! k); auto with poll.
Qed.

Lemma lifts_pollCaught t p e thrown w :
  lifts R w (pollCaught t p e thrown w).
Proof using R_refl R_trans R_cleared.
  unfold pollCaught. destruct thrown; [by apply lifts_same|].
  eapply (lifts_trans R R_trans); [|apply lifts_retire; done].
  by apply lifts_same.
Qed.

Lemma lifts_pollResolved t r o w : lifts R w (pollResolved t r o w).
Proof using R_refl R_trans R_cleared.
  unfold pollResolved. callback_guards t w p Hp; auto with poll.
  set (w1 := invoke_onUpdate _ _ _ _).
  assert (lifts R w w1) as E1 by by apply lifts_same.
  destruct o as [|x again];
    [|eapply (lifts_trans R R_trans); eauto using lifts_pollCaught].
  destruct (is_final _);
    [eapply (lifts_trans R R_trans); eauto with poll|].
  destruct (_ && _); [|done].
  eapply (lifts_trans R R_trans); eauto with poll.
Qed.

Lemma lifts_pollRejected t e thrown w :
  lifts R w (pollRejected t e thrown w).
Proof using R_refl R_trans R_cleared.
  unfold pollRejected. callback_guards t w p Hp; auto with poll.
  eapply (lifts_trans R R_trans); [|apply lifts_pollCaught].
  by apply lifts_same.
Qed.

Lemma lifts_render w : lifts R w (render w).
Proof using R_refl R_trans R_cleared.
  unfold render. destruct (stale w); auto with poll.
  eapply (lifts_trans R R_trans);
    [apply lifts_cleanup_list; done | by apply lifts_same].
Qed.

(** Every step but a tick. *)
Lemma lifts_step_quiet w e :
  wf w → (∀ t, e ≠ Tick t) → lifts R w (step w e).
Proof using R_refl R_trans R_cleared.
  intros Hw He. destruct e as [k j cb|k|t|t r|t e| |t r x again|t e x]; simpl;
    auto using lifts_startSummaryPolling, lifts_stopSummaryPolling,
               lifts_pollResolved, lifts_pollRejected, lifts_render.
  by destruct (He t).
Qed.

(** A tick too, when [R] allows the increment. *)
Hypothesis R_counted : ∀ p, R p (counted (S (pollCount p)) p).

Lemma lifts_pollTick t w : lifts R w (pollTick t w).
Proof using R_refl R_trans R_cleared R_counted.
  unfold pollTick. callback_guards t w p Hp; auto with poll.
  eapply (lifts_trans R R_trans);
    [apply (lifts_counted R R_refl t p (S (pollCount p))); auto|].
  destruct (Nat.leb _ _); [|by apply lifts_same].
  eapply (lifts_trans R R_trans);
    [apply lifts_clearInterval; done | by apply lifts_same].
Qed.

Lemma lifts_step w e : wf w → lifts R w (step w e).
Proof using R_refl R_trans R_cleared R_counted.
  intros Hw. destruct e as [k j cb|k|t|t r|t e| |t r x again|t e x];
    try (apply lifts_step_quiet; done).
  apply lifts_pollTick.
Qed.

Lemma lifts_run evs w : wf w → lifts R w (run w evs).
Proof using R_refl R_trans R_cleared R_counted.
  revert w. induction evs as [|e evs IH]; intros w Hw; simpl;
    [by apply lifts_refl|].
  eapply (lifts_trans R R_trans);
    [by apply lifts_step | apply IH, wf_step, Hw].
Qed.
End lifting_steps.

Lemma evolves_run evs w : wf w → lifts evolves w (run w evs).
Proof.
  apply lifts_run;
    eauto using evolves_refl, evolves_trans, evolves_cleared.
  intros p. apply evolves_counted. lia.
Qed.

Lemma keeps_count_step_quiet w e :
  wf w → (∀ t, e ≠ Tick t) → lifts keeps_count w (step w e).
Proof.
  apply lifts_step_quiet; unfold keeps_count; [done| |done].
  intros p q r. congruence.
Qed.

(** ** The bound on [pollCount] *)

Lemma poller_ok_cleared p : pollCount p ≤ MAX_POLLS → poller_ok (cleared p).
Proof. by split. Qed.

Lemma bounded_same w w' : intervals w' = intervals w → bounded w → bounded w'.
Proof. intros E H t p. rewrite E. apply H. Qed.

Lemma bounded_clearInterval t w : bounded w → bounded (clearInterval t w).
Proof.
  intros H u p. simpl.
  intros [[-> (q & Hq & ->)]|[_ Hp]]%lookup_alter_Some; [|eauto].
  apply poller_ok_cleared, (H _ _ Hq).
Qed.

Lemma bounded_setInterval p w :
  poller_ok p → bounded w → bounded (setInterval p w).
Proof.
  intros Hp H u q. simpl.
  intros [[_ <-]|[_ Hq]]%lookup_insert_Some; eauto.
Qed.

Lemma bounded_cleanup_list l w : bounded w → bounded (foldr clearInterval w l).
Proof. induction l; simpl; auto using bounded_clearInterval. Qed.

Lemma bounded_startSummaryPolling s k j cb w :
  bounded w → bounded (startSummaryPolling s k j cb w).
Proof.
  intros H. unfold startSummaryPolling.
  eapply bounded_same; [reflexivity|].
  apply bounded_setInterval.
  - split; simpl; unfold MAX_POLLS; lia.
  - destruct (s !! k); auto using bounded_clearInterval.
Qed.

Lemma bounded_stopSummaryPolling s k w :
  bounded w → bounded (stopSummaryPolling s k w).
Proof.
  intros H. unfold stopSummaryPolling. destruct (s !! k); [|done].
  eapply bounded_same; [reflexivity | by apply bounded_clearInterval].
Qed.

Lemma bounded_pollTick t w : bounded w → bounded (pollTick t w).
Proof.
  intros H. unfold pollTick.
  destruct (intervals w !! t) as [p|] eqn:Hp; [|done].
  destruct (running p) eqn:Hr; [|done].
  destruct (H _ _ Hp) as [_ Hlt]. specialize (Hlt Hr).
  destruct (Nat.leb _ _) eqn:Hle; intros u q; simpl.
  - rewrite alter_insert_eq.
    intros [[_ <-]|[_ Hq]]%lookup_insert_Some; [|eauto].
    apply poller_ok_cleared. simpl. lia.
  - apply Nat.leb_gt in Hle.
    intros [[_ <-]|[_ Hq]]%lookup_insert_Some; [|eauto].
    split; simpl; lia.
Qed.

Lemma bounded_pollCaught t p e thrown w :
  bounded w → bounded (pollCaught t p e thrown w).
Proof.
  intros H. unfold pollCaught. destruct thrown; [by eapply bounded_same|].
  eapply bounded_same; [reflexivity|]. apply bounded_clearInterval.
  by eapply bounded_same.
Qed.

Lemma bounded_pollResolved t r o w :
  bounded w → bounded (pollResolved t r o w).
Proof.
  intros H. unfold pollResolved.
  callback_guards t w p Hp.
  set (w1 := invoke_onUpdate _ _ _ _).
  assert (bounded w1) as H1 by (by eapply bounded_same).
  destruct o as [|x again]; [|by apply bounded_pollCaught].
  assert (bounded (setActiveSummaryPolls (λ prev, delete (meetingId p) prev)
                     (clearInterval t w1))) as H2.
  { eapply bounded_same; [reflexivity | by apply bounded_clearInterval]. }
  destruct (is_final _); [done|]. by destruct (_ && _).
Qed.

Lemma bounded_pollRejected t e thrown w :
  bounded w → bounded (pollRejected t e thrown w).
Proof.
  intros H. unfold pollRejected.
  callback_guards t w p Hp.
  apply bounded_pollCaught. by eapply bounded_same.
Qed.

Lemma bounded_render w : bounded w → bounded (render w).
Proof.
  intros H. unfold render. destruct (stale w); [|done].
  eapply bounded_same; [reflexivity | by apply bounded_cleanup_list].
Qed.

Lemma bounded_step w e : bounded w → bounded (step w e).
Proof.
  destruct e; simpl;
    auto using bounded_startSummaryPolling, bounded_stopSummaryPolling,
               bounded_pollTick, bounded_pollResolved, bounded_pollRejected,
               bounded_render.
Qed.

Lemma bounded_run evs w : bounded w → bounded (run w evs).
Proof.
  revert w. induction evs as [|e evs IH]; intros w Hw; simpl; [done|].
  apply IH, bounded_step, Hw.
Qed.

Lemma reachable_bounded w : reachable w → bounded w.
Proof.
  intros [evs ->]. apply bounded_run. intros t p. simpl.
  by rewrite lookup_empty.
Qed.

(** ** A cleared timer stays cleared *)

Lemma pollTick_cleared t w : is_running w t = false → pollTick t w = w.
Proof.
  unfold is_running, pollTick.
  destruct (intervals w !! t) as [p|]; [|done]. by intros ->.
Qed.

Lemma is_running_clearInterval t w : is_running (clearInterval t w) t = false.
Proof.
  unfold is_running. simpl. rewrite lookup_alter_eq.
  by destruct (intervals w !! t).
Qed.

Lemma cleared_forever t w evs :
  wf w → (t < fresh w)%positive → is_running w t = false →
  is_running (run w evs) t = false.
Proof.
  intros Hw Ht Hr. unfold is_running in *.
  apply (wf_alloc w Hw) in Ht as [p Hp]. rewrite Hp in Hr.
  destruct (evolves_run evs w Hw t p Hp) as (p' & -> & E).
  destruct (running p') eqn:Hr'; [|done].
  apply (ev_running _ _ E) in Hr'. congruence.
Qed.

(** ** What a step lets the outside observe *)

Lemma observable_caught t p e thrown w w0 :
  t ∈ inflight w0 →
  calls w = calls w0 → inflight w = remove_first t (inflight w0) →
  observable w0 (pollCaught t p e thrown w).
Proof.
  intros Hin Hc Hi.
  apply (obs_settle _ _ t (onUpdate p) (failure_record e)); [done| |];
    unfold pollCaught; destruct thrown; simpl; congruence.
Qed.

Lemma observable_step w e : observable w (step w e).
Proof.
  destruct e as [k j cb|k|t|t r|t e| |t r x again|t e x]; simpl.
  - apply obs_silent; unfold startSummaryPolling;
      by destruct (activeSummaryPolls w !! k).
  - apply obs_silent; unfold stopSummaryPolling;
      by destruct (activeSummaryPolls w !! k).
  - unfold pollTick.
    destruct (intervals w !! t) as [p|] eqn:Hp; [|by apply obs_silent].
    destruct (running p) eqn:Hr; [|by apply obs_silent].
    assert (is_running w t = true) by (unfold is_running; by rewrite Hp).
    destruct (Nat.leb _ _).
    + by eapply obs_timeout.
    + by eapply obs_launch.
  - unfold pollResolved.
    destruct (intervals w !! t) as [p|] eqn:Hp; [|by apply obs_silent].
    destruct (bool_decide _) eqn:Hin; [|by apply obs_silent].
    apply bool_decide_eq_true in Hin.
    apply (obs_settle _ _ t (onUpdate p) r); [done| |].
    + destruct (is_final _); [done|]. by destruct (_ && _).
    + destruct (is_final _); [done|]. by destruct (_ && _).
  - unfold pollRejected.
    destruct (intervals w !! t) as [p|] eqn:Hp; [|by apply obs_silent].
    destruct (bool_decide _) eqn:Hin; [|by apply obs_silent].
    apply bool_decide_eq_true in Hin.
    by apply observable_caught.
  - apply obs_silent; unfold render; destruct (stale w); try done;
      unfold cleanup; by rewrite cleanup_list_unfold.
  - unfold pollResolved.
    destruct (intervals w !! t) as [p|] eqn:Hp; [|by apply obs_silent].
    destruct (bool_decide _) eqn:Hin; [|by apply obs_silent].
    apply bool_decide_eq_true in Hin.
    apply (obs_settle_twice _ _ t (onUpdate p) r (failure_record x));
      [done| |]; unfold pollCaught; destruct again; simpl;
      by rewrite <- ?app_assoc.
  - unfold pollRejected.
    destruct (intervals w !! t) as [p|] eqn:Hp; [|by apply obs_silent].
    destruct (bool_decide _) eqn:Hin; [|by apply obs_silent].
    apply bool_decide_eq_true in Hin.
    by apply observable_caught.
Qed.

Lemma calls_by_snoc t l c :
  calls_by t (l ++ [c])
  = calls_by t l ++ (if decide (call_timer c = t) then [c] else []).
Proof.
  unfold calls_by. rewrite filter_app. reflexivity.
Qed.

Lemma fetches_of_snoc t l u :
  fetches_of t (l ++ [u])
  = fetches_of t l + (if decide (u = t) then 1 else 0).
Proof.
  unfold fetches_of. rewrite filter_app, length_app. f_equal.
  rewrite filter_cons, filter_nil. by case_decide.
Qed.

Lemma fetches_of_remove_same t l :
  t ∈ l → S (fetches_of t (remove_first t l)) = fetches_of t l.
Proof.
  unfold fetches_of. induction l as [|x l IH]; simpl.
  - by intros ?%elem_of_nil.
  - intros Hin. rewrite (filter_cons _ x l).
    destruct (decide (x = t)) as [->|Hne]; [done|].
    rewrite filter_cons, decide_False by done.
    apply IH. by apply elem_of_cons in Hin as [->|].
Qed.

Lemma fetches_of_remove_other t u l :
  u ≠ t → fetches_of t (remove_first u l) = fetches_of t l.
Proof.
  intros Hne. unfold fetches_of. induction l as [|x l IH]; simpl; [done|].
  rewrite (filter_cons _ x l).
  destruct (decide (x = u)) as [->|Hxu].
  - by rewrite decide_False.
  - rewrite filter_cons. case_decide; simpl; by rewrite IH.
Qed.

(** For a cleared closure every fetch that settles yields one call or
    two, and nothing else changes what it has called. *)
Lemma owed_step t w e :
  is_running w t = false →
  owed t w ≤ owed t (step w e)
  ∧ owed_at_most t (step w e) ≤ owed_at_most t w.
Proof.
  intros Hr. unfold owed, owed_at_most.
  destruct (observable_step w e)
    as [-> ->| u cb r Hu -> -> | u Hu -> -> | u cb r Hu -> ->
       | u cb r r' Hu -> ->].
  - done.
  - rewrite calls_by_snoc. simpl.
    rewrite decide_False by congruence. by rewrite app_nil_r.
  - rewrite fetches_of_snoc.
    rewrite decide_False by congruence. lia.
  - rewrite calls_by_snoc, length_app. simpl.
    destruct (decide (u = t)) as [->|Hne]; simpl.
    + rewrite <- (fetches_of_remove_same t (inflight w)) by done. lia.
    + rewrite fetches_of_remove_other by done. lia.
  - change [mkCall u cb r; mkCall u cb r']
      with ([mkCall u cb r] ++ [mkCall u cb r']).
    rewrite app_assoc, !calls_by_snoc, !length_app. simpl.
    destruct (decide (u = t)) as [->|Hne]; simpl.
    + rewrite <- (fetches_of_remove_same t (inflight w)) by done. lia.
    + rewrite fetches_of_remove_other by done. lia.
Qed.

Lemma owed_run t w evs :
  wf w → (t < fresh w)%positive → is_running w t = false →
  owed t w ≤ owed t (run w evs)
  ∧ owed_at_most t (run w evs) ≤ owed_at_most t w.
Proof.
  revert w. induction evs as [|e evs IH]; intros w Hw Ht Hr; simpl; [done|].
  destruct (owed_step t w e Hr) as [Hlow Hhigh].
  destruct (IH (step w e)) as [Hlow' Hhigh']; [| | |lia].
  - by apply wf_step.
  - pose proof (wf_step w e Hw) as Hw'.
    destruct (proj2 (wf_alloc w Hw t) Ht) as [p Hp].
    destruct (evolves_run [e] w Hw t p Hp) as (p' & Hp' & _).
    apply (wf_alloc _ Hw'). eauto.
  - apply (cleared_forever t w [e]); done.
Qed.

(** After its timer is cleared a closure is silent, except for the fetches
    it still has in flight: its interval never fires again, and the calls
    it makes from then on are paid for by those fetches. *)
Lemma cancelled_quiet t w evs :
  wf w → (t < fresh w)%positive → is_running w t = false →
  is_running (run w evs) t = false
  ∧ step (run w evs) (Tick t) = run w evs
  ∧ (owed t w ≤ owed t (run w evs)
     ∧ owed_at_most t (run w evs) ≤ owed_at_most t w).
Proof.
  intros Hw Ht Hr.
  pose proof (cleared_forever t w evs Hw Ht Hr) as Hr'.
  split; [done|]. split; [by apply pollTick_cleared | by apply owed_run].
Qed.

Lemma calls_grow w evs : ∃ new, calls (run w evs) = calls w ++ new.
Proof.
  revert w. induction evs as [|e evs IH]; intros w; simpl.
  - exists []. by rewrite app_nil_r.
  - destruct (IH (step w e)) as [new ->].
    destruct (observable_step w e)
      as [-> _| u cb r _ -> _ | u _ -> _ | u cb r _ -> _
         | u cb r r' _ -> _];
      eauto; rewrite <- app_assoc; eauto.
Qed.

(** The calls a cleared closure makes later come from its fetches that were
    in flight when it was cleared: one call at least and two at most for
    each of them that has settled. *)
Lemma cancelled_calls t w evs :
  wf w → (t < fresh w)%positive → is_running w t = false →
  ∃ new, calls (run w evs) = calls w ++ new
         ∧ fetches_of t (inflight w)
           ≤ length (calls_by t new) + fetches_of t (inflight (run w evs))
         ∧ length (calls_by t new) + 2 * fetches_of t (inflight (run w evs))
           ≤ 2 * fetches_of t (inflight w).
Proof.
  intros Hw Ht Hr. destruct (calls_grow w evs) as [new Hnew].
  exists new. split; [done|].
  destruct (owed_run t w evs Hw Ht Hr) as [Hlow Hhigh].
  unfold owed, owed_at_most in *.
  rewrite Hnew in Hlow, Hhigh. unfold calls_by in *.
  rewrite filter_app, length_app in Hlow, Hhigh. lia.
Qed.

Lemma is_running_cleared_then_set t k w :
  is_running
    (setActiveSummaryPolls (λ prev, delete k prev) (clearInterval t w)) t
  = false.
Proof. apply (is_running_clearInterval t w). Qed.


(** ** Only a tick changes [pollCount] *)

Lemma pollCount_step w e t p :
  wf w → intervals w !! t = Some p →
  ∃ p', intervals (step w e) !! t = Some p'
        ∧ (pollCount p' = pollCount p
           ∨ (e = Tick t ∧ running p = true
              ∧ pollCount p' = S (pollCount p))).
Proof.
  intros Hw Hp.
  assert ((∃ u, e = Tick u) ∨ (∀ u, e ≠ Tick u)) as [[u ->]|Hquiet]
    by (destruct e; eauto).
  - simpl. unfold pollTick. callback_guards u w q Hq; eauto.
    destruct (decide (u = t)) as [->|Hne].
    + rewrite Hp in Hq. injection Hq as <-.
      destruct (Nat.leb _ _); simpl.
      * rewrite lookup_alter_eq, lookup_insert_eq. simpl. eauto 10.
      * rewrite lookup_insert_eq. simpl. eauto 10.
    + destruct (Nat.leb _ _); simpl.
      * rewrite lookup_alter_ne, lookup_insert_ne by done. eauto.
      * rewrite lookup_insert_ne by done. eauto.
  - destruct (keeps_count_step_quiet w e Hw Hquiet t p Hp)
      as (p' & Hp' & Hc).
    eauto.
Qed.

(** ** What [stopSummaryPolling] itself touches *)

Lemma stopSummaryPolling_absent s k w :
  s !! k = None → stopSummaryPolling s k w = w.
Proof. unfold stopSummaryPolling. by intros ->. Qed.

Lemma stopSummaryPolling_frame s k1 k2 t1 t2 w :
  k1 ≠ k2 → s !! k1 = Some t1 → t1 ≠ t2 →
  let w' := stopSummaryPolling s k1 w in
  pendingPolls w' !! k1 = None
  ∧ pendingPolls w' !! k2 = pendingPolls w !! k2
  ∧ intervals w' !! t2 = intervals w !! t2
  ∧ calls w' = calls w ∧ inflight w' = inflight w.
Proof.
  intros Hk Hs Ht. unfold stopSummaryPolling. rewrite Hs. simpl.
  rewrite lookup_delete_eq, lookup_delete_ne, lookup_alter_ne by done.
  done.
Qed.

(** ** Terminal and non-terminal outcomes of a fetch *)




Lemma startSummaryPolling_clears s k t j cb w :
  wf w → s !! k = Some t → (t < fresh w)%positive →
  let w' := startSummaryPolling s k j cb w in
  t ≠ fresh w
  ∧ (t < fresh w')%positive
  ∧ is_running w' t = false
  ∧ pendingPolls w' !! k = Some (fresh w)
  ∧ intervals w' !! fresh w = Some (mkPoller k j cb 0 true)
  ∧ calls w' = calls w ∧ inflight w' = inflight w.
Proof.
  intros Hw Hs Ht. simpl. unfold startSummaryPolling, is_running.
  rewrite Hs. simpl.
  assert (t ≠ fresh w) as Hne by lia.
  rewrite !lookup_insert_eq, lookup_insert_ne, lookup_alter_eq by done.
  destruct (proj2 (wf_alloc w Hw t) Ht) as [p ->]. simpl.
  repeat split; try done. lia.
Qed.

Lemma stopSummaryPolling_clears s k t w :
  s !! k = Some t →
  let w' := stopSummaryPolling s k w in
  fresh w' = fresh w
  ∧ is_running w' t = false
  ∧ pendingPolls w' !! k = None
  ∧ calls w' = calls w ∧ inflight w' = inflight w.
Proof.
  intros Hs. simpl. unfold stopSummaryPolling. rewrite Hs.
  rewrite is_running_cleared_then_set. simpl.
  by rewrite lookup_delete_eq.
Qed.


(** A running timer that fires counts one more poll. *)
Lemma pollTick_counts t p w :
  intervals w !! t = Some p → running p = true →
  ∃ p', intervals (pollTick t w) !! t = Some p'
        ∧ pollCount p' = S (pollCount p).
Proof.
  intros Hp Hr. unfold pollTick. rewrite Hp, Hr.
  destruct (Nat.leb _ _); simpl.
  - rewrite lookup_alter_eq, lookup_insert_eq. simpl. eauto.
  - rewrite lookup_insert_eq. eauto.
Qed.


(** * The claims *)

(** ** Cancellation and replacement *)

(** C1, counterexample: a poll is started, its first tick launches a fetch,
    the poll is stopped and the component re-rendered; when the fetch then
    resolves, the callback of the stopped poll is invoked. *)
Lemma stopped_poll_still_calls_back :
  let w := run init [Start "m1" "p1" 0; Render; Tick 1; Stop "m1"; Render] in
  is_running w 1 = false
  ∧ activeSummaryPolls w !! "m1" = None
  ∧ calls w = []
  ∧ calls (step w (Resolve 1 completed)) = [mkCall 1 0 completed].
Proof. vm_compute. done. Qed.

(** C1, as the code has it: when [stopSummaryPolling] or a later
    [startSummaryPolling] for key [k] runs from a closure whose
    [activeSummaryPolls] maps [k] to timer [t], the call itself invokes no
    callback and clears [t]; in every continuation, whether the callback
    returns or throws, [t] stays cleared and its tick does nothing, and the
    only later calls made by the closure of [t] come from its fetches that
    were in flight at the cancellation: each of them that has settled
    accounts for one call at least and two at most. *)
Theorem cancelled_handle_calls_only_for_inflight w k t e :
  reachable w → activeSummaryPolls w !! k = Some t →
  e = Stop k ∨ (∃ j cb, e = Start k j cb) →
  let w' := step w e in
  calls w' = calls w
  ∧ inflight w' = inflight w
  ∧ is_running w' t = false
  ∧ ∀ evs, is_running (run w' evs) t = false
           ∧ step (run w' evs) (Tick t) = run w' evs
           ∧ ∃ new, calls (run w' evs) = calls w' ++ new
                    ∧ fetches_of t (inflight w)
                      ≤ length (calls_by t new)
                        + fetches_of t (inflight (run w' evs))
                    ∧ length (calls_by t new)
                      + 2 * fetches_of t (inflight (run w' evs))
                      ≤ 2 * fetches_of t (inflight w).
Proof.
  intros Hre Hs He. pose proof (reachable_wf w Hre) as Hw.
  pose proof (wf_step w e Hw) as Hw'.
  pose proof (wf_active w Hw k t Hs) as Ht.
  assert (calls (step w e) = calls w ∧ inflight (step w e) = inflight w
          ∧ is_running (step w e) t = false
          ∧ (t < fresh (step w e))%positive) as (Hc & Hi & Hr & Ht').
  { destruct He as [->|(j & cb & ->)]; simpl.
    - destruct (stopSummaryPolling_clears _ k t w Hs) as (Hf & ? & _ & ? & ?).
      rewrite Hf. done.
    - destruct (startSummaryPolling_clears _ k t j cb w Hw Hs Ht)
        as (_ & ? & ? & _ & _ & ? & ?).
      done. }
  simpl. split; [done|]. split; [done|]. split; [done|].
  intros evs.
  destruct (cancelled_quiet t _ evs Hw' Ht' Hr) as (Hq1 & Hq2 & _).
  destruct (cancelled_calls t _ evs Hw' Ht' Hr)
    as (new & Hnew & Hlow & Hhigh).
  split; [done|]. split; [done|].
  exists new. split; [done|]. by rewrite <- Hi.
Qed.

Lemma cancelled_handle_calls_only_for_inflight_witness :
  let w := run init [Start "m1" "p1" 0; Render; Tick 1] in
  let w' := step w (Stop "m1") in
  let future := [Render; Tick 1;
                 ResolveThrows 1 completed (ErrorObject "render failed") None;
                 Tick 1]%positive in
  calls w' = calls w
  ∧ is_running (run w' future) 1 = false
  ∧ ∃ new, calls (run w' future) = calls w' ++ new
           ∧ fetches_of 1 (inflight w)
             ≤ length (calls_by 1 new)
               + fetches_of 1 (inflight (run w' future))
           ∧ length (calls_by 1 new)
             + 2 * fetches_of 1 (inflight (run w' future))
             ≤ 2 * fetches_of 1 (inflight w).
Proof.
  intros w w' future.
  assert (reachable w) as Hre by (by eexists).
  assert (activeSummaryPolls w !! "m1" = Some 1%positive) as Hs
    by (vm_compute; reflexivity).
  destruct (cancelled_handle_calls_only_for_inflight w "m1" 1%positive
              (Stop "m1") Hre Hs (or_introl eq_refl))
    as (Hc & _ & _ & Hever).
  destruct (Hever future) as (Hr & _ & Hnew).
  exact (conj Hc (conj Hr Hnew)).
Defined.

(** C2, counterexample: a poll for ["m1"] with callback 0 has a fetch in
    flight when it is replaced by a poll with callback 1; after the
    replacement the fetch resolves and callback 0 is invoked. *)
Lemma replaced_poll_still_calls_back :
  let w := run init [Start "m1" "p1" 0; Render; Tick 1;
                     Start "m1" "p2" 1; Render] in
  activeSummaryPolls w !! "m1" = Some 2%positive
  ∧ is_running w 1 = false
  ∧ is_running w 2 = true
  ∧ calls w = []
  ∧ calls (step w (Resolve 1 processing)) = [mkCall 1 0 processing].
Proof. vm_compute. done. Qed.

(** C2, as the code has it: the registry is a map, so it holds at most one
    timer per key.  When [startSummaryPolling] for key [k] runs from a
    closure whose [activeSummaryPolls] maps [k] to timer [t], it clears [t]
    and queues the registry entry from [k] to a new running timer whose
    closure has [pollCount = 0] and the new callback.  In every
    continuation, whether the callbacks return or throw, [t] stays cleared
    and its tick does nothing; the replaced closure makes at most two calls
    per fetch of its own that was in flight at the replacement and no other
    call, and every call made by the new closure goes to the new
    callback. *)
Theorem restart_replaces_handle w k t j2 cb2 :
  reachable w → activeSummaryPolls w !! k = Some t →
  let w' := step w (Start k j2 cb2) in
  t ≠ fresh w
  ∧ pendingPolls w' !! k = Some (fresh w)
  ∧ intervals w' !! fresh w = Some (mkPoller k j2 cb2 0 true)
  ∧ is_running w' t = false
  ∧ calls w' = calls w
  ∧ ∀ evs, is_running (run w' evs) t = false
           ∧ step (run w' evs) (Tick t) = run w' evs
           ∧ ∃ new, calls (run w' evs) = calls w ++ new
                    ∧ length (calls_by t new)
                      ≤ 2 * fetches_of t (inflight w)
                    ∧ ∀ c, c ∈ new → call_timer c = fresh w →
                           call_sink c = cb2.
Proof.
  intros Hre Hs. pose proof (reachable_wf w Hre) as Hw.
  pose proof (wf_step w (Start k j2 cb2) Hw) as Hw'.
  pose proof (wf_active w Hw k t Hs) as Ht.
  simpl in *.
  destruct (startSummaryPolling_clears _ k t j2 cb2 w Hw Hs Ht)
    as (Hne & Ht' & Hr & Hq & Hn & Hc & Hi).
  repeat (split; [done|]).
  intros evs.
  set (w' := startSummaryPolling _ _ _ _ _) in *.
  destruct (cancelled_quiet t w' evs Hw' Ht' Hr) as (Hq1 & Hq2 & _).
  destruct (cancelled_calls t w' evs Hw' Ht' Hr)
    as (new & Hnew & _ & Hlen).
  split; [done|]. split; [done|].
  exists new. split; [by rewrite <- Hc|]. split; [rewrite <- Hi; lia|].
  intros c Hin Hct.
  pose proof (wf_run evs w' Hw') as Hw''.
  destruct (wf_calls _ Hw'' c) as (p & Hp & <-).
  { rewrite Hnew. apply elem_of_app. by right. }
  rewrite Hct in Hp.
  destruct (evolves_run evs w' Hw' _ _ Hn) as (p' & Hp' & E).
  rewrite Hp in Hp'. injection Hp' as <-.
  apply (ev_sink _ _ E).
Qed.

Lemma restart_replaces_handle_witness :
  let w := run init [Start "m1" "p1" 0; Render; Tick 1] in
  let w' := step w (Start "m1" "p2" 1) in
  let future := [Render;
                 ResolveThrows 1 processing (OtherValue "oops") None;
                 Tick 1; Tick 2; Resolve 2 completed]%positive in
  pendingPolls w' !! "m1" = Some (fresh w)
  ∧ is_running (run w' future) 1 = false
  ∧ ∃ new, calls (run w' future) = calls w ++ new
           ∧ length (calls_by 1 new) ≤ 2 * fetches_of 1 (inflight w)
           ∧ ∀ c, c ∈ new → call_timer c = fresh w → call_sink c = 1.
Proof.
  intros w w' future.
  assert (reachable w) as Hre by (by eexists).
  assert (activeSummaryPolls w !! "m1" = Some 1%positive) as Hs
    by (vm_compute; reflexivity).
  destruct (restart_replaces_handle w "m1" 1%positive "p2" 1 Hre Hs)
    as (_ & Hq & _ & _ & _ & Hever).
  destruct (Hever future) as (Hr & _ & Hnew).
  exact (conj Hq (conj Hr Hnew)).
Defined.

(** ** The timeout tick and the outcomes of a fetch *)

(** C3, counterexample: on the tick that brings [pollCount] to 120 the
    callback receives a record whose [error] is the long message of the
    source, and no call of the run carries
    [{status: 'error', error: 'timed out after 10 minutes'}]. *)
Lemma timeout_record_is_not_the_short_one :
  let w := run init (patient_run 119) in
  is_running w 1 = true
  ∧ calls (step w (Tick 1))
    = calls w
      ++ [mkCall 1 0
            (mkStatus "error"
               (Some "Summary generation timed out after 10 minutes. Please try again or check your model configuration.")
               None)]
  ∧ filter (λ c, call_arg c = short_timeout_record) (calls (step w (Tick 1)))
    = [].
Proof. vm_compute. done. Qed.

(** C3, as the code has it: when a running timer fires and the increment
    brings [pollCount] to [MAX_POLLS] (120), no fetch is launched, [onUpdate]
    is invoked exactly once, with [{status: 'error', error: 'Summary
    generation timed out after 10 minutes. Please try again or check your
    model configuration.'}], the timer is cleared and the registry entry
    deleted; in every continuation the timer stays cleared and its tick does
    nothing. *)
Theorem timeout_tick_retires_handle w t p :
  reachable w → intervals w !! t = Some p → running p = true →
  MAX_POLLS ≤ S (pollCount p) →
  let w' := step w (Tick t) in
  inflight w' = inflight w
  ∧ calls w'
    = calls w
      ++ [mkCall t (onUpdate p)
            (mkStatus "error"
               (Some "Summary generation timed out after 10 minutes. Please try again or check your model configuration.")
               None)]
  ∧ is_running w' t = false
  ∧ unregistered (meetingId p) w'
  ∧ ∀ evs, is_running (run w' evs) t = false
           ∧ step (run w' evs) (Tick t) = run w' evs.
Proof.
  intros Hre Hp Hr Hmax. pose proof (reachable_wf w Hre) as Hw.
  pose proof (wf_step w (Tick t) Hw) as Hw'.
  simpl in *. unfold pollTick in *.
  rewrite Hp, Hr, (proj2 (Nat.leb_le _ _) Hmax) in *.
  split; [done|]. split; [done|].
  set (w' := invoke_onUpdate _ _ _ _) in *.
  assert (is_running w' t = false) as Hr'.
  { unfold is_running. simpl.
    by rewrite lookup_alter_eq, lookup_insert_eq. }
  split; [exact Hr'|]. split; [apply unregistered_intro; simpl; [done | apply lookup_delete_eq]|].
  intros evs.
  assert (t < fresh w')%positive as Ht by (apply (wf_alloc w Hw); eauto).
  destruct (cancelled_quiet t w' evs Hw' Ht Hr') as (Hq1 & Hq2 & _).
  done.
Qed.

Lemma timeout_tick_retires_handle_witness :
  let w := run init (patient_run 119) in
  let w' := step w (Tick 1) in
  inflight w' = inflight w
  ∧ calls w' = calls w ++ [mkCall 1 0 timeout_record]
  ∧ is_running w' 1 = false
  ∧ unregistered "m1" w'
  ∧ step (run w' [Render]) (Tick 1) = run w' [Render].
Proof.
  intros w.
  assert (reachable w) as Hre by (by eexists).
  assert (intervals w !! 1%positive = Some (mkPoller "m1" "p1" 0 119 true))
    as Hp by (vm_compute; reflexivity).
  destruct (timeout_tick_retires_handle w 1%positive _ Hre Hp eq_refl
              (le_n 120))
    as (Hi & Hc & Hr & Hd & Hever).
  destruct (Hever [Render]) as [_ Hq].
  exact (conj Hi (conj Hc (conj Hr (conj Hd Hq)))).
Defined.







(** C6, counterexample.  First run: the fetch rejects with a value that is
    not an [Error] instance (here a string); the callback receives
    ['Unknown error'], not the failure's message.  Second run: the fetch
    rejects and the callback throws on the error report (line 249); lines
    253-258 are skipped, so the timer keeps running, the registry keeps the
    entry and the next tick fetches again. *)
Lemma fetch_failure_unknown_error_or_polled_again :
  (let w := run init [Start "m1" "p1" 0; Render; Tick 1] in
   calls (step w (Reject 1 (OtherValue "connection refused")))
   = [mkCall 1 0 (mkStatus "error" (Some "Unknown error") None)])
  ∧ (let w := run init [Start "m1" "p1" 0; Render; Tick 1] in
     let w' := step w (RejectThrows 1 (ErrorObject "connection refused")
                         (ErrorObject "render failed")) in
     calls w' = [mkCall 1 0
                   (mkStatus "error" (Some "connection refused") None)]
     ∧ is_running w' 1 = true
     ∧ pendingPolls w' !! "m1" = Some 1%positive
     ∧ activeSummaryPolls (step w' Render) !! "m1" = Some 1%positive
     ∧ inflight w' = []
     ∧ inflight (step w' (Tick 1)) = [1%positive]).
Proof. vm_compute. done. Qed.

(** C6, as the code has it, for a call of [onUpdate] that returns: one
    rejected fetch is terminal: [onUpdate] receives
    [{status: 'error', error: msg}], where [msg] is the [message] of the
    thrown value when it is an [Error] instance and ['Unknown error'] when
    it is not; the timer is cleared and the registry entry deleted; in
    every continuation the timer stays cleared, its tick does nothing and
    the closure launches no new fetch. *)
Theorem fetch_failure_retires_handle w t p e :
  reachable w → intervals w !! t = Some p → t ∈ inflight w →
  let w' := pollRejected t e None w in
  calls w' = calls w ++ [mkCall t (onUpdate p)
                           (mkStatus "error" (Some (failure_message e)) None)]
  ∧ (∀ m, e = ErrorObject m → failure_message e = m)
  ∧ (∀ v, e = OtherValue v → failure_message e = "Unknown error")
  ∧ is_running w' t = false
  ∧ unregistered (meetingId p) w'
  ∧ ∀ evs, is_running (run w' evs) t = false
           ∧ step (run w' evs) (Tick t) = run w' evs
           ∧ fetches_of t (inflight (run w' evs))
             ≤ fetches_of t (inflight w').
Proof.
  intros Hre Hp Hin. pose proof (reachable_wf w Hre) as Hw.
  pose proof (wf_step w (Reject t e) Hw) as Hw'.
  simpl in *. unfold pollRejected in *.
  rewrite Hp, bool_decide_eq_true_2 in * by done.
  split; [done|]. split; [by intros m ->|]. split; [by intros v ->|].
  assert (is_running
            (setActiveSummaryPolls (λ prev, delete (meetingId p) prev)
               (clearInterval t
                  (invoke_onUpdate t (onUpdate p) (failure_record e)
                     (settle_fetch t w)))) t = false) as Hr
    by apply is_running_cleared_then_set.
  split; [exact Hr|]. split; [apply unregistered_intro; simpl; [done | apply lookup_delete_eq]|].
  intros evs.
  assert (t < fresh w)%positive as Ht by (apply (wf_alloc w Hw); eauto).
  destruct (cancelled_quiet t _ evs Hw' Ht Hr) as (Hq1 & Hq2 & _).
  destruct (cancelled_calls t _ evs Hw' Ht Hr) as (new & _ & Hnew).
  split; [done|]. split; [done|]. lia.
Qed.

Lemma fetch_failure_retires_handle_witness :
  let w := run init [Start "m1" "p1" 0; Render; Tick 1] in
  let w' := step w (Reject 1 (ErrorObject "connection refused")) in
  calls w' = calls w ++ [mkCall 1 0
                           (mkStatus "error" (Some "connection refused") None)]
  ∧ is_running w' 1 = false
  ∧ unregistered "m1" w'
  ∧ step (run w' [Render; Tick 1]) (Tick 1) = run w' [Render; Tick 1].
Proof.
  intros w.
  assert (reachable w) as Hre by (by eexists).
  assert (intervals w !! 1%positive = Some (mkPoller "m1" "p1" 0 1 true))
    as Hp by (vm_compute; reflexivity).
  assert (1%positive ∈ inflight w) as Hin
    by (vm_compute; apply list_elem_of_here).
  destruct (fetch_failure_retires_handle w 1%positive _
              (ErrorObject "connection refused") Hre Hp Hin)
    as (Hc & _ & _ & Hr & Hd & Hever).
  destruct (Hever [Render; Tick 1%positive]) as (_ & Hq & _).
  exact (conj Hc (conj Hr (conj Hd Hq))).
Defined.

(** ** The empty key *)

(** C7, counterexample: [startSummaryPolling] does not reject the empty key.
    Starting a poll for [""] creates a running timer and a registry entry,
    and after one tick and one answer the callback has been invoked. *)
Lemma empty_key_is_not_rejected :
  let w := run init [Start "" "p1" 0; Render] in
  activeSummaryPolls w !! "" = Some 1%positive
  ∧ is_running w 1 = true
  ∧ calls (run w [Tick 1; Resolve 1 processing]) = [mkCall 1 0 processing].
Proof. vm_compute. done. Qed.

(** C7, as the code has it: [startSummaryPolling] treats the empty key like
    any other key: it creates a running timer whose closure starts with
    [pollCount = 0], queues a registry entry from [""] to that timer, and
    invokes no callback itself. *)
Theorem empty_key_starts_a_poll w j cb :
  let w' := step w (Start "" j cb) in
  pendingPolls w' !! "" = Some (fresh w)
  ∧ intervals w' !! fresh w = Some (mkPoller "" j cb 0 true)
  ∧ is_running w' (fresh w) = true
  ∧ calls w' = calls w
  ∧ inflight w' = inflight w.
Proof.
  simpl. unfold startSummaryPolling, is_running.
  destruct (activeSummaryPolls w !! ""); simpl;
    by rewrite !lookup_insert_eq.
Qed.

(** ** The tick counter *)

(** C8: [pollCount] is 0 in the closure a start creates; a tick of a running
    timer increments it by exactly one and no other step changes it; it
    never decreases along an execution; and it never exceeds [MAX_POLLS]
    (120). *)
Theorem pollCount_bounded_monotone w :
  reachable w →
  (∀ k j cb, intervals (step w (Start k j cb)) !! fresh w
             = Some (mkPoller k j cb 0 true))
  ∧ (∀ t p, intervals w !! t = Some p → running p = true →
            ∃ p', intervals (step w (Tick t)) !! t = Some p'
                  ∧ pollCount p' = S (pollCount p))
  ∧ (∀ e t p, intervals w !! t = Some p →
              ∃ p', intervals (step w e) !! t = Some p'
                    ∧ (pollCount p' = pollCount p
                       ∨ (e = Tick t ∧ running p = true
                          ∧ pollCount p' = S (pollCount p))))
  ∧ (∀ evs t p, intervals w !! t = Some p →
                ∃ p', intervals (run w evs) !! t = Some p'
                      ∧ pollCount p ≤ pollCount p')
  ∧ (∀ t p, intervals w !! t = Some p → pollCount p ≤ MAX_POLLS).
Proof.
  intros Hre. pose proof (reachable_wf w Hre) as Hw.
  split; [|split; [|split; [|split]]].
  - intros k j cb. simpl. unfold startSummaryPolling.
    destruct (activeSummaryPolls w !! k); simpl; by rewrite lookup_insert_eq.
  - intros t p Hp Hr. by apply pollTick_counts.
  - intros e t p Hp. by apply pollCount_step.
  - intros evs t p Hp.
    destruct (evolves_run evs w Hw t p Hp) as (p' & Hp' & E).
    exists p'. split; [done | apply (ev_count _ _ E)].
  - intros t p Hp. apply (reachable_bounded w Hre t p Hp).
Qed.

Lemma pollCount_bounded_monotone_witness :
  let w := run init (patient_run 119) in
  intervals (step w (Start "m2" "p2" 1)) !! fresh w
  = Some (mkPoller "m2" "p2" 1 0 true)
  ∧ (∃ p', intervals (step w (Tick 1)) !! 1%positive = Some p'
           ∧ pollCount p' = 120)
  ∧ (∃ p', intervals (run w [Tick 1; Render; Tick 1]) !! 1%positive = Some p'
           ∧ 119 ≤ pollCount p')
  ∧ 119 ≤ MAX_POLLS.
Proof.
  intros w.
  assert (reachable w) as Hre by (by eexists).
  assert (intervals w !! 1%positive = Some (mkPoller "m1" "p1" 0 119 true))
    as Hp by (vm_compute; reflexivity).
  destruct (pollCount_bounded_monotone w Hre)
    as (Hstart & Htick & _ & Hmono & Hmax).
  exact (conj (Hstart "m2" "p2" 1)
           (conj (Htick 1%positive _ Hp eq_refl)
              (conj (Hmono [Tick 1; Render; Tick 1]%positive 1%positive _ Hp)
                 (Hmax 1%positive _ Hp)))).
Defined.

(** ** Two meetings polled together *)

(** C9, the code at the failing input: two polls are started from one
    closure and rendered, so both timers run.  [stopSummaryPolling] for
    ["m1"] itself leaves the timer of ["m2"] running, but the render that
    follows runs the clean-up of the effect over the outgoing map, which
    clears every timer in it: ["m2"] keeps its registry entry, its timer is
    cleared and its tick does nothing any more.  The same happens when each
    call is followed by its own render. *)
Theorem stop_silences_the_other_meeting :
  (let w := run init [Start "m1" "p1" 0; Start "m2" "p2" 1; Render] in
   is_running w 1 = true ∧ is_running w 2 = true
   ∧ activeSummaryPolls w !! "m1" = Some 1%positive
   ∧ activeSummaryPolls w !! "m2" = Some 2%positive
   ∧ is_running (step w (Stop "m1")) 2 = true
   ∧ let w' := run w [Stop "m1"; Render] in
     activeSummaryPolls w' !! "m2" = Some 2%positive
     ∧ is_running w' 2 = false
     ∧ step w' (Tick 2) = w')
  ∧ (let w := run init [Start "m1" "p1" 0; Render;
                        Start "m2" "p2" 1; Render] in
     is_running w 2 = true
     ∧ activeSummaryPolls w !! "m1" = Some 1%positive
     ∧ activeSummaryPolls w !! "m2" = Some 2%positive
     ∧ let w' := run w [Stop "m1"; Render] in
       activeSummaryPolls w' !! "m2" = Some 2%positive
       ∧ is_running w' 2 = false
       ∧ step w' (Tick 2) = w').
Proof. vm_compute. done. Qed.

(** ** Statuses outside the enumeration *)




(** * Further properties of the polling registry *)

(** ** How a step changes the registry and the timer supply *)

Lemma pollCaught_registry t p e thrown w :
  fresh (pollCaught t p e thrown w) = fresh w
  ∧ activeSummaryPolls (pollCaught t p e thrown w) = activeSummaryPolls w
  ∧ ∀ k u, pendingPolls (pollCaught t p e thrown w) !! k = Some u →
           pendingPolls w !! k = Some u.
Proof.
  unfold pollCaught. destruct thrown; simpl; [done|].
  split; [done|]. split; [done|].
  by intros k u [_ Hk]%lookup_delete_Some.
Qed.

Lemma fresh_step w e :
  fresh (step w e) = fresh w
  ∨ (∃ k j cb, e = Start k j cb
               ∧ fresh (step w e) = Pos.succ (fresh w)
               ∧ intervals (step w e) !! fresh w
                 = Some (mkPoller k j cb 0 true)).
Proof.
  destruct e as [k j cb|k|t|t r|t e| |t r x again|t e x]; simpl.
  - right. exists k, j, cb. unfold startSummaryPolling.
    destruct (activeSummaryPolls w !! k); simpl;
      by rewrite lookup_insert_eq.
  - left. unfold stopSummaryPolling.
    by destruct (activeSummaryPolls w !! k).
  - left. unfold pollTick. callback_guards t w p Hp.
    by destruct (Nat.leb _ _).
  - left. unfold pollResolved. callback_guards t w p Hp.
    destruct (is_final _); [done|]. by destruct (_ && _).
  - left. unfold pollRejected. callback_guards t w p Hp.
    by rewrite (proj1 (pollCaught_registry _ _ _ _ _)).
  - left. unfold render, cleanup. destruct (stale w); [|done].
    by rewrite cleanup_list_unfold.
  - left. unfold pollResolved. callback_guards t w p Hp.
    by rewrite (proj1 (pollCaught_registry _ _ _ _ _)).
  - left. unfold pollRejected. callback_guards t w p Hp.
    by rewrite (proj1 (pollCaught_registry _ _ _ _ _)).
Qed.

Lemma pending_step w e k t :
  pendingPolls (step w e) !! k = Some t →
  pendingPolls w !! k = Some t ∨ (∃ j cb, e = Start k j cb ∧ t = fresh w).
Proof.
  assert (∀ u p x thrown w0,
            pendingPolls w0 = pendingPolls w →
            pendingPolls (pollCaught u p x thrown w0) !! k = Some t →
            pendingPolls w !! k = Some t
            ∨ (∃ j cb, e = Start k j cb ∧ t = fresh w)) as Hcaught.
  { intros u p x thrown w0 <- Hk. left.
    by apply (pollCaught_registry u p x thrown w0). }
  destruct e as [k' j cb|k'|u|u r|u e| |u r x again|u e x]; simpl.
  - unfold startSummaryPolling.
    destruct (activeSummaryPolls w !! k'); simpl;
      intros [[<- <-]|[_ H]]%lookup_insert_Some; eauto.
  - unfold stopSummaryPolling.
    destruct (activeSummaryPolls w !! k'); simpl; [|by left].
    intros [_ H]%lookup_delete_Some. by left.
  - unfold pollTick. callback_guards u w p Hp; try by left.
    destruct (Nat.leb _ _); simpl; [|by left].
    intros [_ H]%lookup_delete_Some. by left.
  - unfold pollResolved. callback_guards u w p Hp; try by left.
    destruct (is_final _); simpl;
      [intros [_ H]%lookup_delete_Some; by left|].
    destruct (_ && _); simpl; [|by left].
    intros [_ H]%lookup_delete_Some. by left.
  - unfold pollRejected. callback_guards u w p Hp; try by left.
    by apply Hcaught.
  - unfold render, cleanup. destruct (stale w); [|by left].
    rewrite cleanup_list_unfold. simpl. by left.
  - unfold pollResolved. callback_guards u w p Hp; try by left.
    by apply Hcaught.
  - unfold pollRejected. callback_guards u w p Hp; by left.
Qed.

Lemma active_step w e k t :
  activeSummaryPolls (step w e) !! k = Some t →
  activeSummaryPolls w !! k = Some t ∨ pendingPolls w !! k = Some t.
Proof.
  destruct e as [k' j cb|k'|u|u r|u e| |u r x again|u e x]; simpl.
  - unfold startSummaryPolling.
    destruct (activeSummaryPolls w !! k'); simpl; by left.
  - unfold stopSummaryPolling.
    destruct (activeSummaryPolls w !! k'); simpl; by left.
  - unfold pollTick.
    callback_guards u w p Hp; [destruct (Nat.leb _ _)|..]; by left.
  - unfold pollResolved.
    callback_guards u w p Hp;
      [destruct (is_final _); [|destruct (_ && _)]|..]; by left.
  - unfold pollRejected.
    callback_guards u w p Hp;
      rewrite ?(proj1 (proj2 (pollCaught_registry _ _ _ _ _))); by left.
  - unfold render, cleanup. destruct (stale w); [|by left].
    rewrite cleanup_list_unfold. simpl. by right.
  - unfold pollResolved.
    callback_guards u w p Hp;
      rewrite ?(proj1 (proj2 (pollCaught_registry _ _ _ _ _))); by left.
  - unfold pollRejected.
    callback_guards u w p Hp;
      rewrite ?(proj1 (proj2 (pollCaught_registry _ _ _ _ _))); by left.
Qed.

(** ** Registry entries name closures of their own key *)

Lemma registry_sound_step w e :
  wf w → registry_sound w → registry_sound (step w e).
Proof.
  intros Hw Hs k t Hkt.
  assert (pendingPolls w !! k = Some t ∨ activeSummaryPolls w !! k = Some t
          ∨ (∃ j cb, e = Start k j cb ∧ t = fresh w)) as Hold.
  { destruct Hkt as [H|H].
    - apply active_step in H as [H|H]; eauto.
    - apply pending_step in H as [H|H]; eauto. }
  assert (∀ q, intervals w !! t = Some q → meetingId q = k →
               ∃ p, intervals (step w e) !! t = Some p ∧ meetingId p = k)
    as Hkeep.
  { intros q Hq Hm.
    destruct (evolves_run [e] w Hw t q Hq) as (p & Hp & E).
    exists p. split; [done|]. by rewrite (ev_meeting _ _ E). }
  destruct Hold as [H|[H|(j & cb & -> & ->)]].
  - destruct (Hs k t (or_intror H)) as (q & Hq & Hm). eauto.
  - destruct (Hs k t (or_introl H)) as (q & Hq & Hm). eauto.
  - destruct (fresh_step w (Start k j cb))
      as [Hf|(k' & j' & cb' & He & _ & Hn)].
    + simpl in Hf. unfold startSummaryPolling in Hf.
      destruct (activeSummaryPolls w !! k); simpl in Hf; lia.
    + injection He as <- <- <-. eauto.
Qed.

Lemma reachable_registry_sound w : reachable w → registry_sound w.
Proof.
  intros [evs ->].
  assert (∀ evs w, wf w → registry_sound w → registry_sound (run w evs))
    as Hrun.
  { clear. induction evs as [|e evs IH]; intros w Hw Hs; simpl; [done|].
    apply IH; [by apply wf_step | by apply registry_sound_step]. }
  apply Hrun; [apply wf_init|].
  intros k t. simpl. rewrite !lookup_empty. by intros [|].
Qed.

(** X3: for reachable states, [stopSummaryPolling] of one meeting
    leaves the timer and the registry entry of every other registered
    meeting as they were, and starts or delivers nothing: it clears only a
    timer whose closure polls the stopped key. *)
Theorem stop_leaves_other_meetings w k1 k2 t2 :
  reachable w → k1 ≠ k2 →
  activeSummaryPolls w !! k2 = Some t2 ∨ pendingPolls w !! k2 = Some t2 →
  let w' := step w (Stop k1) in
  intervals w' !! t2 = intervals w !! t2
  ∧ is_running w' t2 = is_running w t2
  ∧ pendingPolls w' !! k2 = pendingPolls w !! k2
  ∧ activeSummaryPolls w' = activeSummaryPolls w
  ∧ calls w' = calls w
  ∧ inflight w' = inflight w.
Proof.
  intros Hre Hne H2. pose proof (reachable_registry_sound w Hre) as Hs.
  simpl. unfold stopSummaryPolling, is_running.
  destruct (activeSummaryPolls w !! k1) as [t1|] eqn:H1; [|done].
  assert (t1 ≠ t2) as Ht.
  { intros ->.
    destruct (Hs k1 t2 (or_introl H1)) as (p1 & Hp1 & Hm1).
    destruct (Hs k2 t2 H2) as (p2 & Hp2 & Hm2). congruence. }
  simpl. by rewrite lookup_alter_ne, lookup_delete_ne.
Qed.

Lemma stop_leaves_other_meetings_witness :
  let w := run init [Start "m1" "p1" 0; Start "m2" "p2" 1; Render; Tick 2] in
  let w' := step w (Stop "m1") in
  is_running w' 2 = is_running w 2
  ∧ pendingPolls w' !! "m2" = pendingPolls w !! "m2"
  ∧ calls w' = calls w
  ∧ inflight w' = inflight w.
Proof.
  intros w w'.
  assert (reachable w) as Hre by (by eexists).
  assert ("m1" ≠ "m2") as Hne by discriminate.
  assert (activeSummaryPolls w !! "m2" = Some 2%positive
          ∨ pendingPolls w !! "m2" = Some 2%positive) as H2
    by (left; vm_compute; reflexivity).
  destruct (stop_leaves_other_meetings w "m1" "m2" 2%positive Hre Hne H2)
    as (_ & Hr & Hq & _ & Hc & Hi).
  exact (conj Hr (conj Hq (conj Hc Hi))).
Defined.

(** ** The clean-up effect *)

Lemma cleared_cleared p : cleared (cleared p) = cleared p.
Proof. reflexivity. Qed.

Lemma cleanup_list_lookup l w t :
  intervals (foldr clearInterval w l) !! t
  = if bool_decide (t ∈ l) then cleared <$> intervals w !! t
    else intervals w !! t.
Proof.
  induction l as [|u l IH]; simpl; [done|].
  rewrite lookup_alter. destruct (decide (u = t)) as [->|Hu].
  - rewrite IH, (bool_decide_eq_true_2 (t ∈ t :: l))
      by apply list_elem_of_here.
    case_bool_decide; [|done].
    by destruct (intervals w !! t).
  - rewrite IH.
    rewrite (bool_decide_ext (t ∈ u :: l) (t ∈ l)); [done|].
    rewrite elem_of_cons. split; [intros [Heq|?]; [congruence | done] | by right].
Qed.

Lemma elem_of_registry_timers (m : gmap string timer) t :
  t ∈ (map_to_list m).*2 ↔ ∃ k, m !! k = Some t.
Proof.
  rewrite list_elem_of_fmap. split.
  - intros ([k u] & -> & H%elem_of_map_to_list). eauto.
  - intros [k H]. exists (k, t). split; [done|].
    by apply elem_of_map_to_list.
Qed.

(** X2: a commit that follows any change of the registry clears
    every timer of the registry the closures held so far, whether its poll
    was stopped or not, and touches no other timer; the closures of the new
    render hold the queued registry, and no callback is invoked. *)
Theorem commit_clears_outgoing_timers w :
  stale w = true →
  (∀ k t, activeSummaryPolls w !! k = Some t → is_running (render w) t = false)
  ∧ (∀ t, (∀ k, activeSummaryPolls w !! k ≠ Some t) →
          intervals (render w) !! t = intervals w !! t)
  ∧ activeSummaryPolls (render w) = pendingPolls w
  ∧ calls (render w) = calls w
  ∧ inflight (render w) = inflight w.
Proof.
  intros Hs. unfold render, cleanup, is_running. rewrite Hs. simpl.
  split; [|split].
  - intros k t Hk. rewrite cleanup_list_lookup, bool_decide_eq_true_2.
    + by destruct (intervals w !! t).
    + apply elem_of_registry_timers. eauto.
  - intros t Ht. rewrite cleanup_list_lookup, bool_decide_eq_false_2; [done|].
    intros [k Hk]%elem_of_registry_timers. by apply (Ht k).
  - by rewrite cleanup_list_unfold.
Qed.

Lemma commit_clears_outgoing_timers_witness :
  let w := run init [Start "m1" "p1" 0; Render; Start "m2" "p2" 1] in
  is_running w 1 = true
  ∧ is_running (render w) 1 = false
  ∧ intervals (render w) !! 2%positive = intervals w !! 2%positive
  ∧ activeSummaryPolls (render w) = pendingPolls w.
Proof.
  intros w.
  assert (stale w = true) as Hs by (vm_compute; reflexivity).
  assert (activeSummaryPolls w !! "m1" = Some 1%positive) as H1
    by (vm_compute; reflexivity).
  assert (∀ k, activeSummaryPolls w !! k ≠ Some 2%positive) as H2.
  { intros k. replace (activeSummaryPolls w) with ({["m1" := 1%positive]}
      : gmap string positive) by (vm_compute; reflexivity).
    intros [_ Hk]%lookup_singleton_Some. discriminate Hk. }
  destruct (commit_clears_outgoing_timers w Hs) as (Hclr & Hkeep & Ha & _).
  split; [vm_compute; reflexivity|].
  exact (conj (Hclr "m1" 1%positive H1) (conj (Hkeep 2%positive H2) Ha)).
Defined.

(** ** Calls made through the closures of one render *)

(** X4: a poll started and stopped through the closures of the same render
    is not stopped: when the rendered registry has no entry for the key,
    [stopSummaryPolling] right after [startSummaryPolling] changes nothing,
    and the new timer keeps running with its entry queued. *)
Theorem stop_before_render_is_ignored w k j cb :
  activeSummaryPolls w !! k = None →
  let w1 := step w (Start k j cb) in
  step w1 (Stop k) = w1
  ∧ is_running w1 (fresh w) = true
  ∧ pendingPolls w1 !! k = Some (fresh w).
Proof.
  intros Hk. simpl. unfold startSummaryPolling, stopSummaryPolling, is_running.
  rewrite Hk. simpl. by rewrite Hk, !lookup_insert_eq.
Qed.

Lemma stop_before_render_is_ignored_witness :
  let w1 := step init (Start "m1" "p1" 0) in
  step w1 (Stop "m1") = w1
  ∧ is_running w1 1 = true
  ∧ pendingPolls w1 !! "m1" = Some 1%positive.
Proof.
  apply (stop_before_render_is_ignored init "m1" "p1" 0).
  vm_compute. reflexivity.
Defined.

Lemma render_keeps_unregistered_timer w t :
  (∀ k, activeSummaryPolls w !! k ≠ Some t) →
  intervals (render w) !! t = intervals w !! t.
Proof.
  intros Ht. destruct (stale w) eqn:Hs.
  - by apply (commit_clears_outgoing_timers w Hs).
  - unfold render. by rewrite Hs.
Qed.

(** X5: two starts for one key through the closures of the same render
    leave two running timers, of which the registry knows only the second.
    After the render, [stopSummaryPolling] and the clean-up reach the second
    timer only: the first keeps running although the key has left the
    registry, so no later stop for the key can clear it. *)
Theorem double_start_leaks_a_timer w k j1 cb1 j2 cb2 :
  reachable w → activeSummaryPolls w !! k = None →
  let w2 := run w [Start k j1 cb1; Start k j2 cb2] in
  let w' := run w2 [Render; Stop k; Render] in
  is_running w2 (fresh w) = true
  ∧ is_running w2 (Pos.succ (fresh w)) = true
  ∧ pendingPolls w2 !! k = Some (Pos.succ (fresh w))
  ∧ is_running w' (fresh w) = true
  ∧ is_running w' (Pos.succ (fresh w)) = false
  ∧ activeSummaryPolls w' !! k = None
  ∧ step w' (Stop k) = w'.
Proof.
  intros Hre Hk. pose proof (reachable_wf w Hre) as Hw. cbv zeta.
  set (t1 := fresh w). set (t2 := Pos.succ (fresh w)).
  assert (t1 ≠ t2) as Hne by (subst t1 t2; lia).
  set (P1 := mkPoller k j1 cb1 0 true). set (P2 := mkPoller k j2 cb2 0 true).
  (* the two starts *)
  set (w2 := run w [Start k j1 cb1; Start k j2 cb2]).
  assert (intervals w2 = <[t2 := P2]> (<[t1 := P1]> (intervals w))
          ∧ pendingPolls w2 = <[k := t2]> (<[k := t1]> (pendingPolls w))
          ∧ activeSummaryPolls w2 = activeSummaryPolls w
          ∧ stale w2 = true) as (Hi2 & Hp2 & Ha2 & Hs2).
  { subst w2. simpl. unfold startSummaryPolling. simpl. rewrite Hk. simpl.
    by rewrite Hk. }
  clearbody w2.
  change (run w2 [Render; Stop k; Render])
    with (step (step (render w2) (Stop k)) Render).
  (* the first render: the outgoing registry is the one of [w] *)
  assert (∀ u, u = t1 ∨ u = t2 → ∀ k', activeSummaryPolls w2 !! k' ≠ Some u)
    as Hout2.
  { intros u Hu k' Hk'. rewrite Ha2 in Hk'.
    apply (wf_active w Hw) in Hk'. subst t1 t2. destruct Hu; lia. }
  destruct (commit_clears_outgoing_timers w2 Hs2) as (_ & Hkeep3 & Ha3 & _).
  assert (pendingPolls (render w2) = pendingPolls w2) as Hp3.
  { unfold render, cleanup. rewrite Hs2. by rewrite cleanup_list_unfold. }
  set (w3 := render w2) in *. clearbody w3.
  (* the stop sees the second timer *)
  assert (activeSummaryPolls w3 !! k = Some t2) as Hk3
    by (by rewrite Ha3, Hp2, lookup_insert_eq).
  set (w4 := step w3 (Stop k)).
  assert (intervals w4 = alter cleared t2 (intervals w3)
          ∧ activeSummaryPolls w4 = activeSummaryPolls w3
          ∧ pendingPolls w4 = delete k (pendingPolls w3)
          ∧ stale w4 = true) as (Hi4 & Ha4 & Hp4 & Hs4).
  { subst w4. simpl. unfold stopSummaryPolling. by rewrite Hk3. }
  clearbody w4.
  (* the second render: the outgoing registry holds [t2], not [t1] *)
  assert (∀ k', activeSummaryPolls w4 !! k' ≠ Some t1) as Hout4.
  { intros k' Hk'. rewrite Ha4, Ha3, Hp2 in Hk'.
    apply lookup_insert_Some in Hk' as [[_ Heq]|[Hkk Hk']];
      [by symmetry in Heq|].
    apply lookup_insert_Some in Hk' as [[Heq _]|[_ Hk']]; [done|].
    apply (wf_pending w Hw) in Hk'. subst t1. lia. }
  destruct (commit_clears_outgoing_timers w4 Hs4) as (Hclr5 & Hkeep5 & Ha5 & _).
  change (step w4 Render) with (render w4).
  set (w5 := render w4) in *. clearbody w5.
  assert (activeSummaryPolls w5 !! k = None) as Hk5
    by (by rewrite Ha5, Hp4, lookup_delete_eq).
  unfold is_running.
  rewrite Hi2, lookup_insert_ne, !lookup_insert_eq by done.
  rewrite (Hkeep5 t1 Hout4), Hi4, lookup_alter_ne by done.
  rewrite (Hkeep3 t1 (Hout2 t1 (or_introl eq_refl))), Hi2.
  rewrite lookup_insert_ne, lookup_insert_eq by done.
  rewrite Hp2, lookup_insert_eq.
  repeat (split; [done|]).
  split; [|split; [done|]].
  - apply (Hclr5 k t2). by rewrite Ha4.
  - simpl. unfold stopSummaryPolling. by rewrite Hk5.
Qed.

Lemma double_start_leaks_a_timer_witness :
  let w2 := run init [Start "m1" "p1" 0; Start "m1" "p1" 1] in
  let w' := run w2 [Render; Stop "m1"; Render] in
  is_running w2 1 = true
  ∧ is_running w2 2 = true
  ∧ is_running w' 1 = true
  ∧ is_running w' 2 = false
  ∧ activeSummaryPolls w' !! "m1" = None
  ∧ step w' (Stop "m1") = w'.
Proof.
  assert (reachable init) as Hre by (by exists []).
  assert (activeSummaryPolls init !! "m1" = None) as Hk
    by (vm_compute; reflexivity).
  destruct (double_start_leaks_a_timer init "m1" "p1" 0 "p1" 1 Hre Hk)
    as (H1 & H2 & _ & H3 & H4 & H5 & H6).
  exact (conj H1 (conj H2 (conj H3 (conj H4 (conj H5 H6))))).
Defined.




(** ** A callback that throws *)

(** X12: [onUpdate(result)] runs inside the [try].  When it throws [x] on a
    fetched record - whatever the status of the record - the [catch] block
    invokes the callback a second time, with
    [{status: 'error', error: msg}] for the thrown value; if that call
    returns, the timer is cleared, its tick does nothing any more and the
    registry entry is deleted.  When the call made by the [catch] block
    throws - after a throw on the fetched record or after a rejected fetch
    - the rest of the block is skipped: apart from the calls and the
    settled fetch nothing changes, so a running timer keeps running and
    the entry stays. *)
Theorem throwing_callback_is_called_again w t p r x :
  intervals w !! t = Some p → t ∈ inflight w →
  (let w' := pollResolved t r (Throws x None) w in
   calls w' = calls w
              ++ [mkCall t (onUpdate p) r;
                  mkCall t (onUpdate p)
                    (mkStatus "error" (Some (failure_message x)) None)]
   ∧ inflight w' = remove_first t (inflight w)
   ∧ is_running w' t = false
   ∧ step w' (Tick t) = w'
   ∧ unregistered (meetingId p) w')
  ∧ (∀ y, let w' := pollResolved t r (Throws x (Some y)) w in
          calls w' = calls w
                     ++ [mkCall t (onUpdate p) r;
                         mkCall t (onUpdate p)
                           (mkStatus "error" (Some (failure_message x)) None)]
          ∧ inflight w' = remove_first t (inflight w)
          ∧ intervals w' = intervals w
          ∧ pendingPolls w' = pendingPolls w
          ∧ activeSummaryPolls w' = activeSummaryPolls w
          ∧ stale w' = stale w)
  ∧ (∀ e y, let w' := pollRejected t e (Some y) w in
            calls w' = calls w
                       ++ [mkCall t (onUpdate p)
                             (mkStatus "error" (Some (failure_message e))
                                None)]
            ∧ inflight w' = remove_first t (inflight w)
            ∧ intervals w' = intervals w
            ∧ pendingPolls w' = pendingPolls w
            ∧ activeSummaryPolls w' = activeSummaryPolls w
            ∧ stale w' = stale w).
Proof.
  intros Hp Hin. unfold pollResolved, pollRejected, pollCaught.
  rewrite Hp, (bool_decide_eq_true_2 _ Hin). simpl.
  split; [|by rewrite <- app_assoc].
  set (w' := setActiveSummaryPolls _ _).
  assert (is_running w' t = false) as Hr
    by apply is_running_cleared_then_set.
  split; [by rewrite <- app_assoc|]. split; [done|]. split; [done|].
  split; [by apply pollTick_cleared|].
  apply unregistered_intro; simpl; [done | apply lookup_delete_eq].
Qed.

Lemma throwing_callback_is_called_again_witness :
  let w := run init [Start "m1" "p1" 0; Render; Tick 1] in
  let x := ErrorObject "render failed" in
  (let w' := step w (ResolveThrows 1 processing x None) in
   calls w' = calls w
              ++ [mkCall 1 0 processing;
                  mkCall 1 0 (mkStatus "error" (Some "render failed") None)]
   ∧ is_running w' 1 = false
   ∧ unregistered "m1" w')
  ∧ (let w' := step w (ResolveThrows 1 processing x (Some x)) in
     calls w' = calls w
                ++ [mkCall 1 0 processing;
                    mkCall 1 0 (mkStatus "error" (Some "render failed") None)]
     ∧ intervals w' = intervals w
     ∧ pendingPolls w' = pendingPolls w)
  ∧ (let w' := step w (RejectThrows 1 (OtherValue "refused") x) in
     calls w' = calls w
                ++ [mkCall 1 0 (mkStatus "error" (Some "Unknown error") None)]
     ∧ intervals w' = intervals w
     ∧ pendingPolls w' = pendingPolls w).
Proof.
  intros w x.
  assert (intervals w !! 1%positive = Some (mkPoller "m1" "p1" 0 1 true))
    as Hp by (vm_compute; reflexivity).
  assert (1%positive ∈ inflight w) as Hin
    by (vm_compute; apply list_elem_of_here).
  destruct (throwing_callback_is_called_again w 1%positive _ processing x
              Hp Hin) as ((Hc1 & _ & Hr1 & _ & Hu1) & Htwice & Hcatch).
  destruct (Htwice x) as (Hc2 & _ & Hi2 & Hq2 & _).
  destruct (Hcatch (OtherValue "refused") x) as (Hc3 & _ & Hi3 & Hq3 & _).
  exact (conj (conj Hc1 (conj Hr1 Hu1))
           (conj (conj Hc2 (conj Hi2 Hq2)) (conj Hc3 (conj Hi3 Hq3)))).
Defined.

(** ** The calls a tick accounts for *)

Lemma calls_by_none t l :
  (∀ c, c ∈ l → call_timer c ≠ t) → calls_by t l = [].
Proof.
  unfold calls_by. induction l as [|c l IH]; intros H; [done|].
  rewrite filter_cons, decide_False by (apply H, list_elem_of_here).
  apply IH. intros c' Hc'. apply H. by right.
Qed.

Lemma fetches_of_none t l : t ∉ l → fetches_of t l = 0.
Proof.
  unfold fetches_of. induction l as [|u l IH]; intros H; [done|].
  apply not_elem_of_cons in H as [Hne Hl].
  rewrite filter_cons, decide_False by done. by apply IH.
Qed.

Lemma owed_fresh w :
  wf w → owed (fresh w) w = 0 ∧ owed_at_most (fresh w) w = 0.
Proof.
  intros Hw. unfold owed, owed_at_most.
  rewrite calls_by_none, fetches_of_none; [done| |].
  - intros Hin. apply (wf_inflight w Hw) in Hin. lia.
  - intros c Hc Heq. destruct (wf_calls w Hw c Hc) as (p & Hp & _).
    assert (call_timer c < fresh w)%positive
      by (apply (wf_alloc w Hw); eauto).
    lia.
Qed.

Lemma owed_same t w w' :
  calls w' = calls w → inflight w' = inflight w →
  owed t w ≤ owed t w' ∧ owed_at_most t w' ≤ owed_at_most t w.
Proof. unfold owed, owed_at_most. by intros -> ->. Qed.

Lemma owed_called t u cb r w w' :
  calls w' = calls w ++ [mkCall u cb r] → inflight w' = inflight w →
  owed t w' = owed t w + (if decide (u = t) then 1 else 0)
  ∧ owed_at_most t w'
    = owed_at_most t w + (if decide (u = t) then 1 else 0).
Proof.
  unfold owed, owed_at_most. intros -> ->.
  rewrite calls_by_snoc, length_app. simpl.
  case_decide; simpl; lia.
Qed.

Lemma owed_launched t u w w' :
  calls w' = calls w → inflight w' = inflight w ++ [u] →
  owed t w' = owed t w + (if decide (u = t) then 1 else 0)
  ∧ owed_at_most t w'
    = owed_at_most t w + (if decide (u = t) then 2 else 0).
Proof.
  unfold owed, owed_at_most. intros -> ->. rewrite fetches_of_snoc.
  case_decide; lia.
Qed.

Lemma owed_settled t u cb r w w' :
  u ∈ inflight w →
  calls w' = calls w ++ [mkCall u cb r] →
  inflight w' = remove_first u (inflight w) →
  owed t w ≤ owed t w' ∧ owed_at_most t w' ≤ owed_at_most t w.
Proof.
  unfold owed, owed_at_most. intros Hin -> ->.
  rewrite calls_by_snoc, length_app. simpl.
  destruct (decide (u = t)) as [->|Hne]; simpl.
  - rewrite <- (fetches_of_remove_same t (inflight w)) by done. lia.
  - rewrite fetches_of_remove_other by done. lia.
Qed.

Lemma owed_settled_twice t u cb r r' w w' :
  u ∈ inflight w →
  calls w' = calls w ++ [mkCall u cb r; mkCall u cb r'] →
  inflight w' = remove_first u (inflight w) →
  owed t w ≤ owed t w' ∧ owed_at_most t w' ≤ owed_at_most t w.
Proof.
  unfold owed, owed_at_most. intros Hin -> ->.
  change [mkCall u cb r; mkCall u cb r']
    with ([mkCall u cb r] ++ [mkCall u cb r']).
  rewrite app_assoc, !calls_by_snoc, !length_app. simpl.
  destruct (decide (u = t)) as [->|Hne]; simpl.
  - rewrite <- (fetches_of_remove_same t (inflight w)) by done. lia.
  - rewrite fetches_of_remove_other by done. lia.
Qed.

(** Apart from a tick, a step only converts fetches in flight into calls:
    one call, or two when the callback throws on the answer. *)
Lemma owed_step_quiet t w e :
  (∀ u, e ≠ Tick u) →
  owed t w ≤ owed t (step w e)
  ∧ owed_at_most t (step w e) ≤ owed_at_most t w.
Proof.
  intros Hquiet.
  destruct e as [k j cb|k|u|u r|u e| |u r x again|u e x]; simpl.
  - apply owed_same; unfold startSummaryPolling;
      by destruct (activeSummaryPolls w !! k).
  - apply owed_same; unfold stopSummaryPolling;
      by destruct (activeSummaryPolls w !! k).
  - by destruct (Hquiet u).
  - unfold pollResolved.
    destruct (intervals w !! u) as [q|] eqn:Hq; [|done].
    destruct (bool_decide _) eqn:Hin; [|done].
    apply bool_decide_eq_true in Hin.
    apply (owed_settled t u (onUpdate q) r w); [done| |];
      (destruct (is_final _); [done|]); by destruct (_ && _).
  - unfold pollRejected.
    destruct (intervals w !! u) as [q|] eqn:Hq; [|done].
    destruct (bool_decide _) eqn:Hin; [|done].
    apply bool_decide_eq_true in Hin.
    by apply (owed_settled t u (onUpdate q) (failure_record e) w).
  - apply owed_same; unfold render; destruct (stale w); try done;
      unfold cleanup; by rewrite cleanup_list_unfold.
  - unfold pollResolved.
    destruct (intervals w !! u) as [q|] eqn:Hq; [|done].
    destruct (bool_decide _) eqn:Hin; [|done].
    apply bool_decide_eq_true in Hin.
    apply (owed_settled_twice t u (onUpdate q) r (failure_record x) w);
      [done| |]; unfold pollCaught; destruct again; simpl;
      by rewrite <- ?app_assoc.
  - unfold pollRejected.
    destruct (intervals w !! u) as [q|] eqn:Hq; [|done].
    destruct (bool_decide _) eqn:Hin; [|done].
    apply bool_decide_eq_true in Hin.
    by apply (owed_settled t u (onUpdate q) (failure_record e) w).
Qed.

Lemma accounted_step_quiet w e :
  wf w → (∀ u, e ≠ Tick u) → accounted w → accounted (step w e).
Proof.
  intros Hw Hquiet Ha t p' Hp'.
  destruct (owed_step_quiet t w e Hquiet) as [Hlow Hhigh].
  assert (t < fresh (step w e))%positive as Ht
    by (apply (wf_alloc _ (wf_step w e Hw)); eauto).
  assert (t = fresh w ∧ pollCount p' = 0
          ∨ (t < fresh w)%positive) as [[-> Hnew]|Hold].
  { destruct (fresh_step w e) as [Hf|(k & j & cb & -> & Hf & Hnew)];
      [right; by rewrite <- Hf|].
    destruct (decide (t = fresh w)) as [->|Hne]; [|right; lia].
    left. split; [done|]. rewrite Hnew in Hp'. by injection Hp' as <-. }
  - destruct (owed_fresh w Hw) as [_ Hzero]. lia.
  - apply (wf_alloc w Hw) in Hold as [p Hp].
    destruct (keeps_count_step_quiet w e Hw Hquiet t p Hp)
      as (p'' & Hp'' & Hc).
    rewrite Hp' in Hp''. injection Hp'' as <-. unfold keeps_count in Hc.
    destruct (Ha t p Hp). lia.
Qed.

Lemma accounted_step w e : wf w → accounted w → accounted (step w e).
Proof.
  intros Hw Ha.
  destruct e as [k j cb|k|u|u r|u e| |u r x again|u e x];
    try (by apply accounted_step_quiet).
  intros t p' Hp'. simpl in *.
  unfold pollTick in *. callback_guards u w q Hq; try by apply Ha.
  destruct (Ha u q Hq) as [Hlow Hhigh].
  destruct (Nat.leb _ _); simpl in Hp'.
  - lazymatch goal with
    | |- _ ≤ owed t ?w' ∧ _ =>
        destruct (owed_called t u (onUpdate q) timeout_record w w')
          as [-> ->]; [done|done|]
    end.
    rewrite alter_insert_eq in Hp'.
    apply lookup_insert_Some in Hp' as [[<- <-]|[Hne Hp']].
    + rewrite !decide_True by done. simpl. lia.
    + rewrite !decide_False by done. destruct (Ha t p' Hp'). lia.
  - lazymatch goal with
    | |- _ ≤ owed t ?w' ∧ _ =>
        destruct (owed_launched t u w w') as [-> ->]; [done|done|]
    end.
    apply lookup_insert_Some in Hp' as [[<- <-]|[Hne Hp']].
    + rewrite !decide_True by done. simpl. lia.
    + rewrite !decide_False by done. destruct (Ha t p' Hp'). lia.
Qed.

Lemma reachable_accounted w : reachable w → accounted w.
Proof.
  intros [evs ->].
  assert (∀ evs w, wf w → accounted w → accounted (run w evs)) as Hrun.
  { clear. induction evs as [|e evs IH]; intros w Hw Ha; simpl; [done|].
    apply IH; [by apply wf_step | by apply accounted_step]. }
  apply Hrun; [apply wf_init|].
  intros t p. simpl. by rewrite lookup_empty.
Qed.

(** X1: in every reachable state the ticks of a poll account for its calls:
    each tick counted in [pollCount] has produced a call or still has its
    fetch in flight, and the calls made plus two for each fetch in flight
    never exceed twice [pollCount] - a tick yields one call (the timeout
    report, or the answer), or two when the callback throws on the answer
    and is invoked again with the failure report.  Hence one poll invokes
    its callback at most 240 times. *)
Theorem calls_per_tick_bounded w t p :
  reachable w → intervals w !! t = Some p →
  pollCount p ≤ length (calls_by t (calls w)) + fetches_of t (inflight w)
  ∧ length (calls_by t (calls w)) + 2 * fetches_of t (inflight w)
    ≤ 2 * pollCount p
  ∧ length (calls_by t (calls w)) ≤ 2 * MAX_POLLS.
Proof.
  intros Hre Hp.
  destruct (reachable_accounted w Hre t p Hp) as [Hlow Hhigh].
  unfold owed in Hlow. unfold owed_at_most in Hhigh.
  destruct (reachable_bounded w Hre t p Hp) as [Hb _].
  repeat split; [done|done|lia].
Qed.

Lemma calls_per_tick_bounded_witness :
  let w := run init [Start "m1" "p1" 0; Render;
                     Tick 1; Resolve 1 processing;
                     Tick 1; ResolveThrows 1 processing
                               (ErrorObject "render failed")
                               (Some (OtherValue "again"));
                     Tick 1; Tick 1]%positive in
  length (calls_by 1 (calls w)) = 3
  ∧ fetches_of 1 (inflight w) = 2
  ∧ 4 ≤ length (calls_by 1 (calls w)) + fetches_of 1 (inflight w)
  ∧ length (calls_by 1 (calls w)) + 2 * fetches_of 1 (inflight w) ≤ 2 * 4
  ∧ length (calls_by 1 (calls w)) ≤ 2 * MAX_POLLS.
Proof.
  intros w.
  assert (reachable w) as Hre by (by eexists).
  assert (intervals w !! 1%positive = Some (mkPoller "m1" "p1" 0 4 true))
    as Hp by (vm_compute; reflexivity).
  split; [vm_compute; reflexivity|]. split; [vm_compute; reflexivity|].
  exact (calls_per_tick_bounded w 1%positive _ Hre Hp).
Defined.

(** While no call of [onUpdate] throws, a step other than a tick converts
    one fetch in flight into one call, or changes neither. *)
Lemma owed_step_returns t w e :
  (∀ u, e ≠ Tick u) → returns_normally e = true →
  owed t (step w e) = owed t w.
Proof.
  intros Hquiet Hret.
  assert (∀ u cb r w',
            u ∈ inflight w →
            calls w' = calls w ++ [mkCall u cb r] →
            inflight w' = remove_first u (inflight w) →
            owed t w' = owed t w) as Hsettled.
  { intros u cb r w' Hin Hc Hi. unfold owed. rewrite Hc, Hi.
    rewrite calls_by_snoc, length_app. simpl.
    destruct (decide (u = t)) as [->|Hne]; simpl.
    - rewrite <- (fetches_of_remove_same t (inflight w)) by done. lia.
    - rewrite fetches_of_remove_other by done. lia. }
  assert (∀ w', calls w' = calls w → inflight w' = inflight w →
                owed t w' = owed t w) as Hsame
    by (intros w' Hc Hi; unfold owed; by rewrite Hc, Hi).
  destruct e as [k j cb|k|u|u r|u e| |u r x again|u e x]; simpl;
    try discriminate Hret.
  - apply Hsame; unfold startSummaryPolling;
      by destruct (activeSummaryPolls w !! k).
  - apply Hsame; unfold stopSummaryPolling;
      by destruct (activeSummaryPolls w !! k).
  - by destruct (Hquiet u).
  - unfold pollResolved.
    destruct (intervals w !! u) as [q|] eqn:Hq; [|done].
    destruct (bool_decide _) eqn:Hin; [|done].
    apply bool_decide_eq_true in Hin.
    apply (Hsettled u (onUpdate q) r); [done| |];
      (destruct (is_final _); [done|]); by destruct (_ && _).
  - unfold pollRejected.
    destruct (intervals w !! u) as [q|] eqn:Hq; [|done].
    destruct (bool_decide _) eqn:Hin; [|done].
    apply bool_decide_eq_true in Hin.
    by apply (Hsettled u (onUpdate q) (failure_record e)).
  - apply Hsame; unfold render; destruct (stale w); try done;
      unfold cleanup; by rewrite cleanup_list_unfold.
Qed.

Lemma accounted_exactly_step w e :
  wf w → returns_normally e = true →
  accounted_exactly w → accounted_exactly (step w e).
Proof.
  intros Hw Hret Ha t p' Hp'.
  assert ((∃ u, e = Tick u) ∨ (∀ u, e ≠ Tick u)) as [[u ->]|Hq]
    by (destruct e; eauto; by right).
  - simpl in *. unfold pollTick in *.
    callback_guards u w q Hq; try by apply Ha.
    pose proof (Ha u q Hq) as Hu.
    destruct (Nat.leb _ _); simpl in Hp'.
    + lazymatch goal with
      | |- owed t ?w' = _ =>
          destruct (owed_called t u (onUpdate q) timeout_record w w')
            as [-> _]; [done|done|]
      end.
      rewrite alter_insert_eq in Hp'.
      apply lookup_insert_Some in Hp' as [[<- <-]|[Hne Hp']].
      * rewrite decide_True by done. simpl. lia.
      * rewrite decide_False by done. rewrite (Ha t p' Hp'). lia.
    + lazymatch goal with
      | |- owed t ?w' = _ =>
          destruct (owed_launched t u w w') as [-> _]; [done|done|]
      end.
      apply lookup_insert_Some in Hp' as [[<- <-]|[Hne Hp']].
      * rewrite decide_True by done. simpl. lia.
      * rewrite decide_False by done. rewrite (Ha t p' Hp'). lia.
  - rewrite (owed_step_returns t w e Hq Hret).
    assert (t < fresh (step w e))%positive as Ht
      by (apply (wf_alloc _ (wf_step w e Hw)); eauto).
    assert (t = fresh w ∧ pollCount p' = 0
            ∨ (t < fresh w)%positive) as [[-> Hnew]|Hold].
    { destruct (fresh_step w e) as [Hf|(k & j & cb & -> & Hf & Hnew)];
        [right; by rewrite <- Hf|].
      destruct (decide (t = fresh w)) as [->|Hne]; [|right; lia].
      left. split; [done|]. rewrite Hnew in Hp'. by injection Hp' as <-. }
    + destruct (owed_fresh w Hw) as [Hzero _]. lia.
    + apply (wf_alloc w Hw) in Hold as [p Hp].
      destruct (keeps_count_step_quiet w e Hw Hq t p Hp)
        as (p'' & Hp'' & Hc).
      rewrite Hp' in Hp''. injection Hp'' as <-. unfold keeps_count in Hc.
      rewrite Hc. by apply Ha.
Qed.

Lemma accounted_exactly_run evs w :
  wf w → forallb returns_normally evs = true →
  accounted_exactly w → accounted_exactly (run w evs).
Proof.
  revert w. induction evs as [|e evs IH]; intros w Hw Hret Ha; [done|].
  simpl in Hret. apply andb_true_iff in Hret as [He Hevs]. simpl.
  apply IH; [by apply wf_step | done | by apply accounted_exactly_step].
Qed.

(** X13: along an execution in which no call of [onUpdate] throws, the
    number of times a poll has invoked its callback plus the number of its
    fetches still in flight equals its [pollCount]: every tick of its timer
    yields exactly one call, at once (the timeout) or when its fetch
    settles, and nothing else calls back.  Such a poll invokes its callback
    at most 120 times. *)
Theorem one_call_per_tick_when_callbacks_return evs t p :
  forallb returns_normally evs = true →
  intervals (run init evs) !! t = Some p →
  length (calls_by t (calls (run init evs)))
  + fetches_of t (inflight (run init evs)) = pollCount p
  ∧ length (calls_by t (calls (run init evs))) ≤ MAX_POLLS.
Proof.
  intros Hret Hp.
  assert (accounted_exactly (run init evs)) as Ha.
  { apply accounted_exactly_run; [apply wf_init | done |].
    intros u q. simpl. by rewrite lookup_empty. }
  specialize (Ha t p Hp). unfold owed in Ha.
  assert (reachable (run init evs)) as Hre by (by eexists).
  destruct (reachable_bounded _ Hre t p Hp) as [Hb _].
  split; [done | lia].
Qed.

Lemma one_call_per_tick_when_callbacks_return_witness :
  let w := run init (patient_run 3 ++ [Tick 1; Tick 1]%positive) in
  length (calls_by 1 (calls w)) + fetches_of 1 (inflight w) = 5
  ∧ length (calls_by 1 (calls w)) ≤ MAX_POLLS.
Proof.
  intros w.
  assert (forallb returns_normally
            (patient_run 3 ++ [Tick 1; Tick 1]%positive) = true) as Hret
    by (vm_compute; reflexivity).
  assert (intervals w !! 1%positive = Some (mkPoller "m1" "p1" 0 5 true))
    as Hp by (vm_compute; reflexivity).
  exact (one_call_per_tick_when_callbacks_return _ 1%positive _ Hret Hp).
Defined.

(** * Transcript search and the filtered sidebar *)

Section search.
Context (trim : string → string).

Lemma search_spinner_step s e :
  (isSearching s = true → searching s ≠ []) →
  isSearching (search_step trim s e) = true →
  searching (search_step trim s e) ≠ [].
Proof.
  intros Hs. destruct e as [q|i a]; simpl.
  - unfold searchTranscripts. case_bool_decide; simpl; [done|].
    intros _ Hnil. by apply app_eq_nil in Hnil as [_ Hnil].
  - unfold searchSettled. destruct (searching s !! i); [|done].
    by destruct a.
Qed.

(** X7: whenever no search is pending the spinner flag [isSearching] is
    off, whatever searches were issued, answered or failed before, in
    whatever order. *)
Theorem spinner_is_off_when_no_search_is_pending evs :
  searching (search_run trim search_init evs) = [] →
  isSearching (search_run trim search_init evs) = false.
Proof.
  assert (∀ evs s, (isSearching s = true → searching s ≠ []) →
                   isSearching (search_run trim s evs) = true →
                   searching (search_run trim s evs) ≠ []) as Hrun.
  { clear. induction evs as [|e evs IH]; intros s Hs; simpl; [done|].
    apply IH. by apply search_spinner_step. }
  intros Hnone.
  destruct (isSearching (search_run trim search_init evs)) eqn:Hb; [|done].
  destruct (Hrun evs search_init) ; done.
Qed.

(** X8: answers are applied in the order in which they arrive: when a
    second search is issued while the first is pending and the first is
    answered last, the results shown are those of the first, older query,
    and the spinner is already off while the older search is pending. *)
Theorem older_search_answered_last_wins s q1 q2 rs1 rs2 :
  searching s = [] → trim q1 ≠ "" → trim q2 ≠ "" →
  let s2 := search_run trim s [Search q1; Search q2; Settle 1 (Found rs2)] in
  searchResults s2 = rs2
  ∧ isSearching s2 = false
  ∧ searching s2 = [q1]
  ∧ searchResults (search_step trim s2 (Settle 0 (Found rs1))) = rs1.
Proof.
  intros Hs H1 H2. simpl. unfold searchTranscripts.
  rewrite !bool_decide_eq_false_2 by done.
  unfold searchSettled. simpl. rewrite Hs. simpl. rewrite Hs. done.
Qed.
End search.

Lemma spinner_is_off_when_no_search_is_pending_witness :
  let evs := [Search "budget"; Search "   "; Search "plan";
              Settle 0 (SearchFailed (OtherValue "offline"));
              Settle 0 (Found [])] in
  isSearching (search_run (λ q, if bool_decide (q = "   ") then "" else q)
                 search_init evs) = false.
Proof.
  intros evs.
  apply (spinner_is_off_when_no_search_is_pending
           (λ q, if bool_decide (q = "   ") then "" else q) evs).
  vm_compute. reflexivity.
Defined.

Lemma older_search_answered_last_wins_witness :
  let trim := λ q : string, q in
  let hit := mkResult "m-1" "Budget" "the budget is" "00:10" in
  let s2 := search_run trim search_init
              [Search "budget"; Search "plan"; Settle 1 (Found [])] in
  searchResults s2 = []
  ∧ isSearching s2 = false
  ∧ searching s2 = ["budget"]
  ∧ searchResults (search_step trim s2 (Settle 0 (Found [hit]))) = [hit].
Proof.
  intros trim hit.
  apply (older_search_answered_last_wins trim search_init
           "budget" "plan" [hit] []); [reflexivity | discriminate ..].
Defined.

Section sidebar.
Context (trim toLowerCase : string → string).

Lemma filter_file_items keep (ms : list CurrentMeeting) :
  List.filter keep (List.map file_item ms)
  = List.map file_item (List.filter (λ m, keep (file_item m)) ms).
Proof.
  induction ms as [|m ms IH]; simpl; [done|].
  destruct (keep (file_item m)); simpl; by rewrite IH.
Qed.

Lemma filter_items_baseItems keep ms :
  filter_items keep (baseItems ms)
  = baseItems (List.filter (λ m, keep (file_item m)) ms).
Proof.
  unfold filter_items, filter_item, baseItems. simpl.
  by rewrite filter_file_items.
Qed.

(** X9: on the tree the provider builds, searching the sidebar is filtering
    the meetings: a blank query shows every meeting; any other query shows
    the single folder ["meetings"] with, in their order, exactly the
    meetings named by a transcript match or whose title contains the query
    (case folded) - whether or not there are transcript matches. *)
Theorem filtered_sidebar_is_sidebar_of_matching_meetings
    (meetings : list CurrentMeeting) searchQuery searchResults :
  filteredSidebarItems trim toLowerCase (baseItems meetings)
    searchQuery searchResults
  = baseItems
      (if bool_decide (trim searchQuery = "") then meetings
       else List.filter
              (meeting_matches toLowerCase searchQuery searchResults)
              meetings).
Proof.
  unfold filteredSidebarItems. case_bool_decide; [done|].
  destruct (Nat.ltb 0 (length searchResults)) eqn:Hlen;
    rewrite filter_items_baseItems; [done|].
  apply Nat.ltb_ge in Hlen.
  destruct searchResults as [|r rs]; [|simpl in Hlen; lia].
  f_equal.
Qed.

(** X10: a meeting for which [findMatchingSnippet] finds a transcript
    snippet is always listed by [filteredSidebarItems]; the snippet is the
    first search result whose id is the meeting's. *)
Theorem snippet_implies_listed (meetings : list CurrentMeeting)
    searchQuery searchResults m r :
  In m meetings →
  findMatchingSnippet trim searchQuery searchResults (meeting_id m) = Some r →
  result_id r = meeting_id m
  ∧ In r searchResults
  ∧ ∃ shown,
      filteredSidebarItems trim toLowerCase (baseItems meetings)
        searchQuery searchResults = baseItems shown
      ∧ In m shown.
Proof.
  intros Hm Hfind. unfold findMatchingSnippet in Hfind.
  destruct (bool_decide (trim searchQuery = "")) eqn:Hblank;
    [discriminate Hfind|].
  destruct (Nat.eqb _ _); [discriminate Hfind|]. simpl in Hfind.
  apply List.find_some in Hfind as [Hr Hid].
  apply bool_decide_eq_true in Hid.
  split; [done|]. split; [done|].
  eexists. split.
  - rewrite filtered_sidebar_is_sidebar_of_matching_meetings, Hblank.
    reflexivity.
  - apply List.filter_In. split; [done|].
    unfold meeting_matches, matched_by_transcript.
    rewrite bool_decide_eq_true_2; [done|].
    apply list_elem_of_In. rewrite <- Hid. by apply List.in_map.
Qed.

Lemma List_filter_idem {A} (f : A → bool) (l : list A) :
  List.filter f (List.filter f l) = List.filter f l.
Proof.
  induction l as [|x l IH]; simpl; [done|].
  destruct (f x) eqn:Hx; simpl; [rewrite Hx|]; by rewrite IH.
Qed.

Lemma filter_items_cons keep it items :
  filter_items keep (it :: items)
  = match filter_item keep it with
    | Some it' => it' :: filter_items keep items
    | None => filter_items keep items
    end.
Proof. reflexivity. Qed.

Lemma filter_item_idempotent keep it it' :
  filter_item keep it = Some it' → filter_item keep it' = Some it'.
Proof.
  unfold filter_item. destruct it as [i ti ty cs]. simpl.
  destruct ty.
  - destruct cs as [cs|]; intros [= <-]; simpl; [|done].
    by rewrite List_filter_idem.
  - destruct (keep _) eqn:Hk; intros [= <-]. simpl. by rewrite Hk.
Qed.

Lemma filter_item_folder keep it it' :
  filter_item keep it = Some it' →
  item_id it' = item_id it ∧ is_folder it' = is_folder it.
Proof.
  unfold filter_item, is_folder. destruct it as [i ti ty cs]. simpl.
  destruct ty.
  - by destruct cs as [cs|]; intros [= <-].
  - by destruct (keep _); intros [= <-].
Qed.

Lemma filter_item_hides_files_only keep it :
  filter_item keep it = None → is_folder it = false.
Proof.
  unfold filter_item, is_folder. destruct (item_type it); [|done].
  by destruct (children it).
Qed.

Lemma filter_items_idempotent keep items :
  filter_items keep (filter_items keep items) = filter_items keep items.
Proof.
  induction items as [|it items IH]; [done|].
  rewrite filter_items_cons.
  destruct (filter_item keep it) as [it'|] eqn:Hit; [|done].
  by rewrite filter_items_cons, (filter_item_idempotent _ _ _ Hit), IH.
Qed.

Lemma filter_items_folders keep items :
  List.map item_id (List.filter is_folder (filter_items keep items))
  = List.map item_id (List.filter is_folder items).
Proof.
  induction items as [|it items IH]; [done|].
  rewrite filter_items_cons. simpl.
  destruct (filter_item keep it) as [it'|] eqn:Hit.
  - destruct (filter_item_folder _ _ _ Hit) as [Hid Hf]. simpl.
    rewrite Hf. destruct (is_folder it); simpl; by rewrite IH, ?Hid.
  - by rewrite (filter_item_hides_files_only _ _ Hit).
Qed.

(** X11: for any sidebar tree, query and search results, the filter never
    hides a folder (the folders of the result are those of the tree, in
    order), and filtering an already filtered tree changes nothing. *)
Theorem sidebar_filter_keeps_folders_and_is_idempotent
    (sidebarItems : list SidebarItem) searchQuery searchResults :
  let shown := filteredSidebarItems trim toLowerCase sidebarItems
                 searchQuery searchResults in
  List.map item_id (List.filter is_folder shown)
  = List.map item_id (List.filter is_folder sidebarItems)
  ∧ filteredSidebarItems trim toLowerCase shown searchQuery searchResults
    = shown.
Proof.
  simpl. unfold filteredSidebarItems.
  destruct (bool_decide (trim searchQuery = "")); [done|].
  destruct (Nat.ltb 0 (length searchResults));
    by rewrite filter_items_folders, filter_items_idempotent.
Qed.
End sidebar.

Lemma snippet_implies_listed_witness :
  let ms := [mkMeeting "m-1" "Budget"; mkMeeting "m-2" "Roadmap"] in
  let hit := mkResult "m-2" "Roadmap" "the budget of" "00:10" in
  result_id hit = "m-2"
  ∧ In hit [hit]
  ∧ ∃ shown,
      filteredSidebarItems (λ q, q) (λ q, q) (baseItems ms) "budget" [hit]
      = baseItems shown
      ∧ In (mkMeeting "m-2" "Roadmap") shown.
Proof.
  intros ms hit.
  apply (snippet_implies_listed (λ q, q) (λ q, q) ms "budget" [hit]
           (mkMeeting "m-2" "Roadmap") hit).
  - right. by left.
  - reflexivity.
Defined.
